(** * Elo rating engine of build_grand_slams.py

    A shallow embedding of [expected_score], [round_weight] and
    [compute_elo_timeseries] (src/build_grand_slams.py), together with the
    properties the specification states about them.

    Modelling choices.
    - Python floats.  The engine is written once over an abstract carrier
      [F] with the operations the source applies to floats ([FloatOps]);
      every property that only depends on the shape of the computation is
      proved for an arbitrary carrier.  The algebraic properties (sums,
      cancellations, monotonicity) are proved for the instance [R_ops], in
      which a float is a real number and [10.0 ** x] is [Rpower 10 x]:
      rounding is abstracted away there, and so is the OverflowError that
      [10.0 ** x] raises for an exponent above 308.  What rounding does to
      those properties is settled in the instance [B64_ops], the IEEE
      binary64 arithmetic of Python floats, in which [10.0 ** x] is a
      parameter known only through the values listed for it.
    - The DataFrame is a list of rows; a Timestamp is its number of
      nanoseconds since the epoch and NaT / NaN is [None].
    - [elo] (a defaultdict) and [last_date] (a dict) are finite maps keyed
      by the normalised player name.
    - Round labels are ASCII strings; [upper] maps a-z to A-Z.
    - [normalize_name] works on the ASCII text that [unidecode] returns;
      [unidecode] itself is a parameter.  The columns of [match_key] are
      strings.  Reading files, parsing dates and [make_players_table] are
      pandas and file-system calls and are not modelled. *)

From stdpp Require Import gmap strings list fin_maps.
From Stdlib Require Import ZArith Ascii String List Sorting.Sorted Sorting.Permutation.
From Stdlib Require Import Reals Lra.
From Stdlib Require Import SpecFloat.

Local Open Scope Z_scope.

(** ** Float operations used by the source *)

Record FloatOps (F : Type) : Type := {
  f_int : Z → F;          (* float(n), and the literals 1.0, 400.0, ... *)
  fadd : F → F → F;
  fsub : F → F → F;
  fmul : F → F → F;
  fdiv : F → F → F;
  fpow : F → F → F;       (* x ** y *)
  fgtb : F → F → bool;    (* x > y *)
}.
Arguments f_int {F}. Arguments fadd {F}. Arguments fsub {F}.
Arguments fmul {F}. Arguments fdiv {F}. Arguments fpow {F}.
Arguments fgtb {F}.

(** ** Strings: [str.upper] and the [in] substring test *)

Definition upper_ascii (c : ascii) : ascii :=
  let n := nat_of_ascii c in
  if (Nat.leb 97 n && Nat.leb n 122)%bool then ascii_of_nat (n - 32) else c.

Fixpoint upper (s : string) : string :=
  match s with
  | EmptyString => EmptyString
  | String c s' => String (upper_ascii c) (upper s')
  end.

(** [contains sub s] is Python's [sub in s]. *)
Fixpoint contains (sub s : string) : bool :=
  match s with
  | EmptyString => String.prefix sub EmptyString
  | String _ s' => (String.prefix sub s || contains sub s')%bool
  end.

(** ** Data *)

Definition Timestamp : Type := Z.

Definition NS_PER_DAY : Z := 86400000000000.

(** [Timedelta.days]: whole days, rounded towards minus infinity. *)
Definition days (delta : Z) : Z := delta / NS_PER_DAY.

Record Row : Type := {
  tourney_id : string;
  tourney_name : string;
  tourney_date : option Timestamp;
  match_num : option Z;
  round : string;
  surface : string;
  winner_name : string;
  loser_name : string;
  winner_name_norm : string;
  loser_name_norm : string;
}.

(** The fields a record of the output copies from its row. *)
Record RowInfo : Type := {
  i_tourney_id : string;
  i_tourney_name : string;
  i_tourney_date : option Timestamp;
  i_round : string;
  i_surface : string;
  i_winner_name : string;
  i_loser_name : string;
  i_winner_name_norm : string;
  i_loser_name_norm : string;
}.

Definition row_info (row : Row) : RowInfo :=
  {| i_tourney_id := tourney_id row;
     i_tourney_name := tourney_name row;
     i_tourney_date := tourney_date row;
     i_round := round row;
     i_surface := surface row;
     i_winner_name := winner_name row;
     i_loser_name := loser_name row;
     i_winner_name_norm := winner_name_norm row;
     i_loser_name_norm := loser_name_norm row |}.

(** ** Sorting: [sort_values(["tourney_date","tourney_id","match_num"],
       na_position="last")]

    pandas sorts on several columns lexicographically, ascending, the nulls
    of each column after its values, and keeps the input order of the rows
    whose keys are equal.  The library routine is modelled by a stable
    insertion sort on that key. *)

(** Three-way comparison of one nullable column, nulls last. *)
Definition cmp_na_last {A} (cmp : A → A → comparison) (x y : option A) : comparison :=
  match x, y with
  | Some a, Some b => cmp a b
  | Some _, None => Lt
  | None, Some _ => Gt
  | None, None => Eq
  end.

Definition lex (c1 c2 : comparison) : comparison :=
  match c1 with Eq => c2 | _ => c1 end.

Definition key_compare (a b : Row) : comparison :=
  lex (cmp_na_last Z.compare (tourney_date a) (tourney_date b))
   (lex (String.compare (tourney_id a) (tourney_id b))
        (cmp_na_last Z.compare (match_num a) (match_num b))).

Definition key_leb (a b : Row) : bool :=
  match key_compare a b with Gt => false | _ => true end.

Definition key_eqb (a b : Row) : bool :=
  match key_compare a b with Eq => true | _ => false end.

(** Stable insertion: [x] goes in front of the first row that is not
    strictly smaller, hence in front of the rows with an equal key. *)
Fixpoint insert_row (x : Row) (l : list Row) : list Row :=
  match l with
  | [] => [x]
  | y :: l' => if key_leb x y then x :: y :: l' else y :: insert_row x l'
  end.

Fixpoint sort_values (l : list Row) : list Row :=
  match l with
  | [] => []
  | x :: l' => insert_row x (sort_values l')
  end.

(** ** The engine, over an arbitrary float carrier *)

Record Config (F : Type) : Type := {
  seed_elo : F;
  base_k : F;
  gs_bonus_k : F;
  decay_per_365d : F;
}.
Arguments seed_elo {F}. Arguments base_k {F}.
Arguments gs_bonus_k {F}. Arguments decay_per_365d {F}.

(** One element of [records]. *)
Record Snapshot (F : Type) : Type := {
  info : RowInfo;
  winner_elo_pre : F;
  loser_elo_pre : F;
  winner_elo_post : F;
  loser_elo_post : F;
  k_used : F;
  exp_winner : F;
  exp_loser : F;
}.
Arguments info {F}. Arguments winner_elo_pre {F}. Arguments loser_elo_pre {F}.
Arguments winner_elo_post {F}. Arguments loser_elo_post {F}.
Arguments k_used {F}. Arguments exp_winner {F}. Arguments exp_loser {F}.

(** The two dictionaries of the loop. *)
Record Store (F : Type) : Type := {
  elo : gmap string F;
  last_date : gmap string (option Timestamp);
}.
Arguments elo {F}. Arguments last_date {F}.

Section Engine.
Context {F : Type} (ops : FloatOps F).

Definition expected_score (elo_player elo_opp : F) : F :=
  fdiv ops (f_int ops 1)
    (fadd ops (f_int ops 1)
       (fpow ops (f_int ops 10)
          (fdiv ops (fsub ops elo_opp elo_player) (f_int ops 400)))).

Definition mapping : gmap string F :=
  <["R128" := f_int ops 0]> (<["R64" := f_int ops 2]> (<["R32" := f_int ops 3]>
 (<["R16" := f_int ops 4]> (<["QF" := f_int ops 5]> (<["SF" := f_int ops 6]>
 (<["F" := f_int ops 8]> ∅)))))).

Definition round_weight (round_str : string) : F :=
  let r := upper round_str in
  if String.eqb "F" r then f_int ops 8
  else if contains "SF" r then f_int ops 6
  else if contains "QF" r then f_int ops 5
  else if contains "16" r then f_int ops 4
  else if contains "32" r then f_int ops 3
  else if contains "64" r then f_int ops 2
  else default (f_int ops 0) (mapping !! r).

(** [elo[p]] on the defaultdict: a missing key is seeded and stored. *)
Definition elo_get (seed : F) (m : gmap string F) (p : string) : F * gmap string F :=
  match m !! p with
  | Some v => (v, m)
  | None => (seed, <[p := seed]> m)
  end.

(** Body of [for p in (wn, ln)], for a valid date [d]. *)
Definition decay_player (cfg : Config F) (d : Timestamp)
    (last : gmap string (option Timestamp)) (m : gmap string F) (p : string)
    : gmap string F :=
  match last !! p with
  | Some (Some ld) =>
      let idle_days := days (d - ld) in
      if (negb (idle_days =? 0) && (idle_days >? 0))%bool then
        let '(v, m1) := elo_get (seed_elo cfg) m p in
        <[p := fsub ops v
                 (fdiv ops (fmul ops (decay_per_365d cfg) (f_int ops idle_days))
                           (f_int ops 365))]> m1
      else m
  | _ => m
  end.

(** Passive decay for both players before the match. *)
Definition apply_decay (cfg : Config F) (st : Store F) (row : Row) : gmap string F :=
  if fgtb ops (decay_per_365d cfg) (f_int ops 0) then
    match tourney_date row with
    | Some d =>
        fold_left (decay_player cfg d (last_date st))
          [winner_name_norm row; loser_name_norm row] (elo st)
    | None => elo st
    end
  else elo st.

(** One iteration of the loop: the new dictionaries and the record appended. *)
Definition step (cfg : Config F) (st : Store F) (row : Row) : Store F * Snapshot F :=
  let d := tourney_date row in
  let wn := winner_name_norm row in
  let ln := loser_name_norm row in
  let rd := round row in
  let m0 := apply_decay cfg st row in
  let '(ew, m1) := elo_get (seed_elo cfg) m0 wn in
  let '(el, m2) := elo_get (seed_elo cfg) m1 ln in
  let exp_w := expected_score ew el in
  let exp_l := fsub ops (f_int ops 1) exp_w in
  let outcome_w := f_int ops 1 in
  let outcome_l := f_int ops 0 in
  let k := fadd ops (base_k cfg) (fmul ops (gs_bonus_k cfg) (round_weight rd)) in
  let ew_new := fadd ops ew (fmul ops k (fsub ops outcome_w exp_w)) in
  let el_new := fadd ops el (fmul ops k (fsub ops outcome_l exp_l)) in
  let m3 := <[ln := el_new]> (<[wn := ew_new]> m2) in
  let last' :=
    match d with
    | Some _ => <[ln := d]> (<[wn := d]> (last_date st))
    | None => last_date st
    end in
  ({| elo := m3; last_date := last' |},
   {| info := row_info row;
      winner_elo_pre := ew; loser_elo_pre := el;
      winner_elo_post := ew_new; loser_elo_post := el_new;
      k_used := k; exp_winner := exp_w; exp_loser := exp_l |}).

(** The loop over the sorted frame, from a given pair of dictionaries. *)
Fixpoint run (cfg : Config F) (st : Store F) (rows : list Row) : list (Snapshot F) :=
  match rows with
  | [] => []
  | row :: rows' =>
      let '(st', snap) := step cfg st row in
      snap :: run cfg st' rows'
  end.

(** The dictionaries left by the loop. *)
Fixpoint final_store (cfg : Config F) (st : Store F) (rows : list Row) : Store F :=
  match rows with
  | [] => st
  | row :: rows' => final_store cfg (fst (step cfg st row)) rows'
  end.

Definition empty_store : Store F := {| elo := ∅; last_date := ∅ |}.

Definition compute_elo_timeseries (cfg : Config F) (df_gs : list Row) : list (Snapshot F) :=
  run cfg empty_store (sort_values df_gs).

(** The rating [elo[p]] would return, without the side effect. *)
Definition rating (cfg : Config F) (m : gmap string F) (p : string) : F :=
  default (seed_elo cfg) (m !! p).

End Engine.

(** ** The specification's round-weight policies *)

(** The ordered rule list of the specification: a test on the upper-cased
    label and the weight it gives. *)
Definition round_rules : list ((string → bool) * Z) :=
  [ (String.eqb "F", 8); (contains "SF", 6); (contains "QF", 5);
    (contains "16", 4); (contains "32", 3); (contains "64", 2) ].

(** First match wins; no match gives 0. *)
Fixpoint first_match (rules : list ((string → bool) * Z)) (r : string) : Z :=
  match rules with
  | [] => 0
  | (test, w) :: rules' => if test r then w else first_match rules' r
  end.

Definition roundWeight_spec {F} (ops : FloatOps F) (r : string) : F :=
  f_int ops (first_match round_rules (upper r)).

(** [round_weight] with the table dropped: the substring chain with a
    constant fallback. *)
Definition round_weight_chain {F} (ops : FloatOps F) (round_str : string) : F :=
  let r := upper round_str in
  if String.eqb "F" r then f_int ops 8
  else if contains "SF" r then f_int ops 6
  else if contains "QF" r then f_int ops 5
  else if contains "16" r then f_int ops 4
  else if contains "32" r then f_int ops 3
  else if contains "64" r then f_int ops 2
  else f_int ops 0.

(** [true] when [round_weight] reaches its last line, the table lookup. *)
Definition reaches_table (round_str : string) : bool :=
  let r := upper round_str in
  negb (String.eqb "F" r || contains "SF" r || contains "QF" r
        || contains "16" r || contains "32" r || contains "64" r).

(** ** Floats as real numbers *)

Definition R_ops : FloatOps R := {|
  f_int := IZR;
  fadd := Rplus;
  fsub := Rminus;
  fmul := Rmult;
  fdiv := Rdiv;
  fpow := Rpower;
  fgtb := fun x y => if Rgt_dec x y then true else false;
|}.

(** The default configuration of the command line. *)
Definition default_config : Config R :=
  {| seed_elo := 1500%R; base_k := 32%R; gs_bonus_k := 0%R;
     decay_per_365d := 0%R |}.

(** ** What a record of the output must satisfy *)

(** The update equations of one iteration, read on the record it appends. *)
Definition updated {F} (ops : FloatOps F) (cfg : Config F) (s : Snapshot F) : Prop :=
  exp_winner s = expected_score ops (winner_elo_pre s) (loser_elo_pre s) ∧
  exp_loser s = fsub ops (f_int ops 1) (exp_winner s) ∧
  k_used s = fadd ops (base_k cfg)
               (fmul ops (gs_bonus_k cfg) (round_weight ops (i_round (info s)))) ∧
  winner_elo_post s = fadd ops (winner_elo_pre s)
               (fmul ops (k_used s) (fsub ops (f_int ops 1) (exp_winner s))) ∧
  loser_elo_post s = fadd ops (loser_elo_pre s)
               (fmul ops (k_used s) (fsub ops (f_int ops 0) (exp_loser s))).

(** The numbers of a record. *)
Definition numbers {F} (s : Snapshot F) : F * F * F * F * F * F * F :=
  (winner_elo_pre s, loser_elo_pre s, winner_elo_post s, loser_elo_post s,
   k_used s, exp_winner s, exp_loser s).

(** The same row with another date. *)
Definition set_date (d : option Timestamp) (row : Row) : Row :=
  {| tourney_id := tourney_id row;
     tourney_name := tourney_name row;
     tourney_date := d;
     match_num := match_num row;
     round := round row;
     surface := surface row;
     winner_name := winner_name row;
     loser_name := loser_name row;
     winner_name_norm := winner_name_norm row;
     loser_name_norm := loser_name_norm row |}.

(** The points a player loses for [idle_days] days without a match. *)
Definition decay_amount {F} (ops : FloatOps F) (cfg : Config F) (idle_days : Z) : F :=
  fdiv ops (fmul ops (decay_per_365d cfg) (f_int ops idle_days)) (f_int ops 365).

(** The same configuration with another base K-factor. *)
Definition with_base_k {F} (k : F) (cfg : Config F) : Config F :=
  {| seed_elo := seed_elo cfg; base_k := k; gs_bonus_k := gs_bonus_k cfg;
     decay_per_365d := decay_per_365d cfg |}.

(** The winner's rating change in the iteration on [row]. *)
Definition winner_gain (cfg : Config R) (st : Store R) (row : Row) : R :=
  (winner_elo_post (snd (step R_ops cfg st row))
   - winner_elo_pre (snd (step R_ops cfg st row)))%R.

(** The effective K-factor of the iteration on [row]. *)
Definition k_factor (cfg : Config R) (row : Row) : R :=
  (base_k cfg + gs_bonus_k cfg * round_weight R_ops (round row))%R.

(** ** Sample data *)

(** A final between two players, dated at the epoch. *)
Definition row_AB : Row :=
  {| tourney_id := "2000-580"; tourney_name := "Australian Open";
     tourney_date := Some 0; match_num := Some 1;
     round := "F"; surface := "Hard";
     winner_name := "A"; loser_name := "B";
     winner_name_norm := "a"; loser_name_norm := "b" |}.

(** The return match one hundred days later. *)
Definition row_BA_100 : Row :=
  {| tourney_id := "2000-520"; tourney_name := "Roland Garros";
     tourney_date := Some (100 * NS_PER_DAY); match_num := Some 1;
     round := "F"; surface := "Clay";
     winner_name := "B"; loser_name := "A";
     winner_name_norm := "b"; loser_name_norm := "a" |}.

(** A row whose two names normalise to the same key, same date. *)
Definition row_self_100 : Row :=
  {| tourney_id := "2000-520"; tourney_name := "Roland Garros";
     tourney_date := Some (100 * NS_PER_DAY); match_num := Some 2;
     round := "F"; surface := "Clay";
     winner_name := "A"; loser_name := "a";
     winner_name_norm := "a"; loser_name_norm := "a" |}.

(** The dictionaries after [row_AB] under the default configuration. *)
Definition store_after_AB : Store R :=
  {| elo := <["b" := 1484%R]> (<["a" := 1516%R]> ∅);
     last_date := <["b" := Some 0]> (<["a" := Some 0]> ∅) |}.

(** Defaults, with 36.5 points of decay per 365 idle days. *)
Definition decay_config : Config R :=
  {| seed_elo := 1500%R; base_k := 32%R; gs_bonus_k := 0%R;
     decay_per_365d := (73 / 2)%R |}.

(** ** The shape of the two dictionaries *)

(** Every stored activity date is a valid date, and every player with an
    activity date has a rating. *)
Definition store_ok {F} (st : Store F) : Prop :=
  ∀ p v, last_date st !! p = Some v → is_Some v ∧ is_Some (elo st !! p).

(** [p] plays in [row]. *)
Definition plays (p : string) (row : Row) : Prop :=
  p = winner_name_norm row ∨ p = loser_name_norm row.

(** The weights [round_weight] can give. *)
Definition weights : list Z := [0; 2; 3; 4; 5; 6; 8].

(** ** Name keys and match keys of [load_and_filter] *)

(** [str.lower] on ASCII text. *)
Definition lower_ascii (c : ascii) : ascii :=
  let n := nat_of_ascii c in
  if (Nat.leb 65 n && Nat.leb n 90)%bool then ascii_of_nat (n + 32) else c.

Fixpoint lower (s : string) : string :=
  match s with
  | EmptyString => EmptyString
  | String c s' => String (lower_ascii c) (lower s')
  end.

(** The ASCII characters that [str.strip()] removes: tab, line feed,
    vertical tab, form feed, carriage return, the four separators 28 to 31
    and the space. *)
Definition is_space (c : ascii) : bool :=
  let n := nat_of_ascii c in
  ((Nat.leb 9 n && Nat.leb n 13) || (Nat.leb 28 n && Nat.leb n 32))%bool.

Fixpoint lstrip (s : string) : string :=
  match s with
  | EmptyString => EmptyString
  | String c s' => if is_space c then lstrip s' else s
  end.

Fixpoint rstrip (s : string) : string :=
  match s with
  | EmptyString => EmptyString
  | String c s' =>
      match rstrip s' with
      | EmptyString => if is_space c then EmptyString else String c EmptyString
      | r => String c r
      end
  end.

Definition strip (s : string) : string := lstrip (rstrip s).

(** [s.replace(old, new)] for a non-empty [old]: the occurrences are found
    from left to right and do not overlap.  [skip] counts the characters of
    an occurrence already replaced that are still to be passed over. *)
Fixpoint replace_from (old new : string) (skip : nat) (s : string) : string :=
  match s with
  | EmptyString => EmptyString
  | String c s' =>
      match skip with
      | S k => replace_from old new k s'
      | O =>
          if String.prefix old s
          then new ++ replace_from old new (String.length old - 1) s'
          else String c (replace_from old new 0 s')
      end
  end.

(** With an empty [old], Python puts [new] in front of every character and
    at the end. *)
Fixpoint replace_empty (new s : string) : string :=
  match s with
  | EmptyString => new
  | String c s' => new ++ String c (replace_empty new s')
  end.

Definition replace (old new s : string) : string :=
  match old with
  | EmptyString => replace_empty new s
  | _ => replace_from old new 0 s
  end.

(** What [normalize_name] does to the text [unidecode] returns. *)
Definition clean (s : string) : string :=
  replace "  " " " (strip (lower s)).

(** [normalize_name]; a missing name ([pd.isna]) is returned as it is.
    [unidecode] is the transliteration to ASCII of the library of that
    name, or the fallback of the script. *)
Definition normalize_name (unidecode : string → string) (name : option string)
    : option string :=
  match name with
  | None => None
  | Some n => Some (clean (unidecode n))
  end.

(** [n] spaces. *)
Fixpoint spaces (n : nat) : string :=
  match n with
  | O => EmptyString
  | S k => String " " (spaces k)
  end.

(** Every character of [s] is one that [strip] removes. *)
Fixpoint all_space (s : string) : bool :=
  match s with
  | EmptyString => true
  | String c s' => (is_space c && all_space s')%bool
  end.

(** [c] is one of the letters A to Z. *)
Definition is_upper (c : ascii) : bool :=
  (Nat.leb 65 (nat_of_ascii c) && Nat.leb (nat_of_ascii c) 90)%bool.

(** First and last character of a string. *)
Definition first_char (s : string) : option ascii :=
  match s with
  | EmptyString => None
  | String c _ => Some c
  end.

Fixpoint last_char (s : string) : option ascii :=
  match s with
  | EmptyString => None
  | String c EmptyString => Some c
  | String _ s' => last_char s'
  end.

(** The column [match_key]. *)
Definition match_key (row : Row) : string :=
  tourney_id row ++ "_" ++ round row ++ "_" ++ winner_name row ++ "_vs_"
  ++ loser_name row.

(** ** Floats as binary64 numbers *)

(** [float(n)]: the integer rounded to the nearest binary64 number. *)
Definition b64_int (n : Z) : spec_float := binary_normalize 53 1024 n 0 false.

(** Python floats: the sum, difference, product and quotient are rounded to
    the nearest binary64 number, ties to even.  [x ** y] is the [pow] of the
    C library; it is a parameter, constrained by [pow_zero_rule] or
    [pow_observed] where a value of it is needed. *)
Definition B64_ops (pow : spec_float → spec_float → spec_float)
    : FloatOps spec_float := {|
  f_int := b64_int;
  fadd := SFadd 53 1024;
  fsub := SFsub 53 1024;
  fmul := SFmul 53 1024;
  fdiv := SFdiv 53 1024;
  fpow := pow;
  fgtb := fun x y => SFltb y x;
|}.

(** [x ** 0.0] and [x ** -0.0] are 1.0 for every [x]. *)
Definition pow_zero_rule (pow : spec_float → spec_float → spec_float) : Prop :=
  ∀ x s, pow x (S754_zero s) = b64_int 1.



(** A stand-in for [pow] that obeys the zero rule, for runs in which the two
    ratings of every match are equal. *)
Definition pow_equal_ratings : spec_float → spec_float → spec_float :=
  fun _ _ => b64_int 1.

(** Zeros and finite numbers: not an infinity, not a NaN. *)
Definition sf_finite (x : spec_float) : bool :=
  match x with
  | S754_zero _ | S754_finite _ _ _ => true
  | _ => false
  end.

(** The same number, the sign of a zero apart. *)
Definition sf_same (x y : spec_float) : Prop :=
  x = y ∨ ∃ s s', x = S754_zero s ∧ y = S754_zero s'.

(** The float 0.5. *)
Definition b64_half : spec_float := SFdiv 53 1024 (b64_int 1) (b64_int 2).

(** The float 1020.1. *)
Definition seed_1020_1 : spec_float := SFdiv 53 1024 (b64_int 10201) (b64_int 10).

(** A configuration without round bonus and without decay. *)
Definition b64_config (seed base : spec_float) : Config spec_float :=
  {| seed_elo := seed; base_k := base; gs_bonus_k := b64_int 0;
     decay_per_365d := b64_int 0 |}.

(** ** Order on sort keys *)

Definition key_le (a b : Row) : Prop := key_leb a b = true.

(** * Properties *)

(** ** Round weights *)

Section RoundWeight.
Context {F : Type} (ops : FloatOps F).

(** A label that passed all six tests is either absent from the table or
    is R128. *)
Lemma mapping_after_chain (r : string) (v : F) :
  String.eqb "F" r = false → contains "SF" r = false →
  contains "QF" r = false → contains "16" r = false →
  contains "32" r = false → contains "64" r = false →
  mapping ops !! r = Some v → r = "R128"%string ∧ v = f_int ops 0.
Proof.
  intros HF HSF HQF H16 H32 H64. unfold mapping.
  rewrite !lookup_insert.
  repeat case_decide; subst; simpl in *; try discriminate.
  intros [= <-]. split; reflexivity.
Qed.

Lemma mapping_fallback (r : string) :
  String.eqb "F" r = false → contains "SF" r = false →
  contains "QF" r = false → contains "16" r = false →
  contains "32" r = false → contains "64" r = false →
  default (f_int ops 0) (mapping ops !! r) = f_int ops 0.
Proof.
  intros HF HSF HQF H16 H32 H64.
  destruct (mapping ops !! r) as [v|] eqn:E; [|reflexivity].
  simpl. eapply mapping_after_chain in E; eauto. tauto.
Qed.

Lemma round_weight_is_chain (r : string) :
  round_weight ops r = round_weight_chain ops r.
Proof.
  unfold round_weight, round_weight_chain. cbv zeta.
  destruct (String.eqb "F" (upper r)) eqn:HF; [reflexivity|].
  destruct (contains "SF" (upper r)) eqn:HSF; [reflexivity|].
  destruct (contains "QF" (upper r)) eqn:HQF; [reflexivity|].
  destruct (contains "16" (upper r)) eqn:H16; [reflexivity|].
  destruct (contains "32" (upper r)) eqn:H32; [reflexivity|].
  destruct (contains "64" (upper r)) eqn:H64; [reflexivity|].
  now apply mapping_fallback.
Qed.

Lemma chain_is_first_match (r : string) :
  round_weight_chain ops r = roundWeight_spec ops r.
Proof.
  unfold round_weight_chain, roundWeight_spec, round_rules. cbn.
  repeat match goal with |- context [if ?b then _ else _] => destruct b end;
    reflexivity.
Qed.

(** C3. [round_weight] upper-cases the label and applies the six rules of
    the specification in their priority order, the first match winning
    and no match giving 0.0; on the labels QF, R16, SF, F and RR it gives
    5.0, 4.0, 6.0, 8.0 and 0.0. *)
Theorem round_weight_priority :
  (∀ r, round_weight ops r = roundWeight_spec ops r) ∧
  round_weight ops "QF" = f_int ops 5 ∧
  round_weight ops "R16" = f_int ops 4 ∧
  round_weight ops "SF" = f_int ops 6 ∧
  round_weight ops "F" = f_int ops 8 ∧
  round_weight ops "RR" = f_int ops 0.
Proof.
  split.
  - intros r. rewrite round_weight_is_chain. apply chain_is_first_match.
  - repeat split; rewrite round_weight_is_chain; reflexivity.
Qed.

(** C8. The exact-label table is redundant: [round_weight] agrees on every
    label with the substring chain whose fallback is the constant 0.0,
    and the only label that both reaches the table and is listed in it is
    R128, whose entry is 0.0. *)
Theorem round_weight_table_redundant :
  (∀ r, round_weight ops r = round_weight_chain ops r) ∧
  (∀ r v, reaches_table r = true → mapping ops !! upper r = Some v →
          upper r = "R128"%string ∧ v = f_int ops 0).
Proof.
  split; [exact round_weight_is_chain|].
  intros r v Hr Hv. unfold reaches_table in Hr. cbv zeta in Hr.
  apply negb_true_iff in Hr.
  repeat (apply orb_false_iff in Hr; destruct Hr as [Hr ?]).
  eapply mapping_after_chain; eauto.
Qed.

End RoundWeight.

(** ** The processing order *)

Section SortKey.

Lemma string_compare_refl (s : string) : String.compare s s = Eq.
Proof.
  pose proof (String.compare_antisym s s) as H.
  destruct (String.compare s s); simpl in H; congruence.
Qed.

Lemma ascii_compare_lt_trans (a b c : ascii) :
  Ascii.compare a b = Lt → Ascii.compare b c = Lt → Ascii.compare a c = Lt.
Proof.
  unfold Ascii.compare. rewrite !N.compare_lt_iff. lia.
Qed.

Lemma string_compare_lt_trans (a b c : string) :
  String.compare a b = Lt → String.compare b c = Lt → String.compare a c = Lt.
Proof.
  revert b c. induction a as [|x a IH]; intros [|y b] [|z c]; simpl;
    try discriminate; try reflexivity.
  destruct (Ascii.compare x y) eqn:Hxy; try discriminate.
  - apply Ascii.compare_eq_iff in Hxy. subst y.
    destruct (Ascii.compare x z) eqn:Hxz; try discriminate; try reflexivity.
    intros; eapply IH; eauto.
  - intros _. destruct (Ascii.compare y z) eqn:Hyz; try discriminate.
    + apply Ascii.compare_eq_iff in Hyz. subst z. now rewrite Hxy.
    + intros _. now rewrite (ascii_compare_lt_trans x y z).
Qed.

Lemma zopt_compare_eq (x y : option Z) :
  cmp_na_last Z.compare x y = Eq → x = y.
Proof.
  destruct x, y; simpl; try discriminate; try reflexivity.
  intros H. apply Z.compare_eq in H. now subst.
Qed.

Lemma zopt_compare_refl (x : option Z) : cmp_na_last Z.compare x x = Eq.
Proof. destruct x; simpl; [apply Z.compare_refl | reflexivity]. Qed.

Lemma zopt_compare_antisym (x y : option Z) :
  cmp_na_last Z.compare x y = CompOpp (cmp_na_last Z.compare y x).
Proof. destruct x, y; simpl; try reflexivity. apply Z.compare_antisym. Qed.

Lemma zopt_compare_lt_trans (x y z : option Z) :
  cmp_na_last Z.compare x y = Lt → cmp_na_last Z.compare y z = Lt →
  cmp_na_last Z.compare x z = Lt.
Proof.
  destruct x, y, z; simpl; try discriminate; try reflexivity.
  rewrite !Z.compare_lt_iff. lia.
Qed.

(** Two rows compare equal exactly when their three key columns agree. *)
Lemma key_compare_eq (a b : Row) :
  key_compare a b = Eq ↔
  tourney_date a = tourney_date b ∧ tourney_id a = tourney_id b ∧
  match_num a = match_num b.
Proof.
  unfold key_compare, lex. split.
  - destruct (cmp_na_last Z.compare (tourney_date a) (tourney_date b)) eqn:H1;
      try discriminate.
    destruct (String.compare (tourney_id a) (tourney_id b)) eqn:H2;
      try discriminate.
    intros H3. apply zopt_compare_eq in H1, H3.
    apply String.compare_eq_iff in H2. auto.
  - intros (-> & -> & ->).
    now rewrite !zopt_compare_refl, string_compare_refl.
Qed.

Lemma key_compare_antisym (a b : Row) :
  key_compare a b = CompOpp (key_compare b a).
Proof.
  unfold key_compare, lex.
  rewrite (zopt_compare_antisym (tourney_date a)),
          (zopt_compare_antisym (match_num a)),
          (String.compare_antisym (tourney_id a)).
  destruct (cmp_na_last Z.compare (tourney_date b) (tourney_date a));
    simpl; try reflexivity.
  destruct (String.compare (tourney_id b) (tourney_id a)); reflexivity.
Qed.

Lemma key_compare_lt_trans (a b c : Row) :
  key_compare a b = Lt → key_compare b c = Lt → key_compare a c = Lt.
Proof.
  unfold key_compare, lex.
  destruct (cmp_na_last Z.compare (tourney_date a) (tourney_date b)) eqn:D1;
    try discriminate.
  - apply zopt_compare_eq in D1. rewrite D1.
    destruct (cmp_na_last Z.compare (tourney_date b) (tourney_date c));
      try discriminate; try reflexivity.
    destruct (String.compare (tourney_id a) (tourney_id b)) eqn:S1;
      try discriminate.
    + apply String.compare_eq_iff in S1. rewrite S1.
      destruct (String.compare (tourney_id b) (tourney_id c));
        try discriminate; try reflexivity.
      apply zopt_compare_lt_trans.
    + intros _.
      destruct (String.compare (tourney_id b) (tourney_id c)) eqn:S2;
        try discriminate.
      * apply String.compare_eq_iff in S2. rewrite <- S2, S1. reflexivity.
      * intros _. now rewrite (string_compare_lt_trans _ _ _ S1 S2).
  - intros _.
    destruct (cmp_na_last Z.compare (tourney_date b) (tourney_date c)) eqn:D2;
      try discriminate.
    + apply zopt_compare_eq in D2. rewrite <- D2, D1. reflexivity.
    + intros _. now rewrite (zopt_compare_lt_trans _ _ _ D1 D2).
Qed.

Lemma key_compare_eq_l (a b c : Row) :
  key_compare a b = Eq → key_compare a c = key_compare b c.
Proof.
  intros H. apply key_compare_eq in H as (H1 & H2 & H3).
  unfold key_compare. now rewrite H1, H2, H3.
Qed.

Lemma key_compare_eq_r (a b c : Row) :
  key_compare b c = Eq → key_compare a b = key_compare a c.
Proof.
  intros H. apply key_compare_eq in H as (H1 & H2 & H3).
  unfold key_compare. now rewrite H1, H2, H3.
Qed.

Lemma key_le_trans (a b c : Row) : key_le a b → key_le b c → key_le a c.
Proof.
  unfold key_le, key_leb. intros Hab Hbc.
  destruct (key_compare a b) eqn:E1; try discriminate.
  - now rewrite (key_compare_eq_l _ _ _ E1).
  - destruct (key_compare b c) eqn:E2; try discriminate.
    + now rewrite <- (key_compare_eq_r _ _ _ E2), E1.
    + now rewrite (key_compare_lt_trans _ _ _ E1 E2).
Qed.

Lemma key_le_total (a b : Row) : key_leb a b = false → key_le b a.
Proof.
  unfold key_le, key_leb. rewrite (key_compare_antisym b a).
  destruct (key_compare a b); simpl; congruence.
Qed.

(** Rows with the key of [k] cannot stand on both sides of a strict
    inequality. *)
Lemma key_eqb_both (k x y : Row) :
  key_eqb k x = true → key_eqb k y = true → key_leb x y = true.
Proof.
  unfold key_eqb, key_leb. intros Hx Hy.
  destruct (key_compare k x) eqn:E1; try discriminate.
  destruct (key_compare k y) eqn:E2; try discriminate.
  now rewrite <- (key_compare_eq_l _ _ _ E1), E2.
Qed.

End SortKey.

Section SortValues.

Lemma insert_row_perm (x : Row) (l : list Row) :
  Permutation (insert_row x l) (x :: l).
Proof.
  induction l as [|y l IH]; simpl; [reflexivity|].
  destruct (key_leb x y); [reflexivity|].
  rewrite IH. apply perm_swap.
Qed.

Lemma sort_values_perm (l : list Row) : Permutation (sort_values l) l.
Proof.
  induction l as [|x l IH]; simpl; [reflexivity|].
  rewrite insert_row_perm. now constructor.
Qed.

Lemma insert_row_hd (x y : Row) (l : list Row) :
  key_le y x → HdRel key_le y l → HdRel key_le y (insert_row x l).
Proof.
  intros Hyx Hl. destruct l as [|z l]; simpl; [now constructor|].
  destruct (key_leb x z); constructor; [assumption|].
  now inversion Hl.
Qed.

Lemma insert_row_sorted (x : Row) (l : list Row) :
  Sorted key_le l → Sorted key_le (insert_row x l).
Proof.
  induction 1 as [|y l Hs IH Hhd]; simpl.
  - repeat constructor.
  - destruct (key_leb x y) eqn:E.
    + constructor; [now constructor|]. now constructor.
    + constructor; [assumption|].
      apply insert_row_hd; [now apply key_le_total | assumption].
Qed.

Lemma sort_values_sorted (l : list Row) : StronglySorted key_le (sort_values l).
Proof.
  apply Sorted_StronglySorted; [exact key_le_trans|].
  induction l as [|x l IH]; simpl; [constructor|].
  now apply insert_row_sorted.
Qed.

Lemma insert_row_filter (k x : Row) (l : list Row) :
  List.filter (key_eqb k) (insert_row x l) = List.filter (key_eqb k) (x :: l).
Proof.
  induction l as [|y l IH]; [reflexivity|].
  cbn [insert_row]. destruct (key_leb x y) eqn:E; [reflexivity|].
  cbn [List.filter] in *. rewrite IH.
  destruct (key_eqb k x) eqn:Ex, (key_eqb k y) eqn:Ey; try reflexivity.
  rewrite (key_eqb_both k x y Ex Ey) in E. discriminate.
Qed.

(** Stability: among the rows that share a key, the input order is kept. *)
Lemma sort_values_stable (k : Row) (l : list Row) :
  List.filter (key_eqb k) (sort_values l) = List.filter (key_eqb k) l.
Proof.
  induction l as [|x l IH]; [reflexivity|].
  cbn [sort_values]. rewrite insert_row_filter.
  cbn [List.filter]. now rewrite IH.
Qed.

End SortValues.

(** ** The loop *)

Section Loop.
Context {F : Type} (ops : FloatOps F).

Lemma step_info (cfg : Config F) (st : Store F) (row : Row) :
  info (snd (step ops cfg st row)) = row_info row.
Proof.
  unfold step.
  destruct (elo_get _ _ (winner_name_norm row)) as [ew m1].
  destruct (elo_get _ m1 (loser_name_norm row)) as [el m2]. reflexivity.
Qed.

Lemma run_cons (cfg : Config F) (st : Store F) (row : Row) (rows : list Row) :
  run ops cfg st (row :: rows) =
  snd (step ops cfg st row) :: run ops cfg (fst (step ops cfg st row)) rows.
Proof. simpl. now destruct (step ops cfg st row). Qed.

Lemma run_info (cfg : Config F) (rows : list Row) (st : Store F) :
  List.map info (run ops cfg st rows) = List.map row_info rows.
Proof.
  revert st. induction rows as [|row rows IH]; intros st; [reflexivity|].
  rewrite run_cons. cbn [List.map]. now rewrite step_info, IH.
Qed.

(** Every record of the output is the record of one iteration, started
    from some pair of dictionaries. *)
Lemma run_In (cfg : Config F) (rows : list Row) (st : Store F) (s : Snapshot F) :
  In s (run ops cfg st rows) →
  ∃ st0 row, In row rows ∧ s = snd (step ops cfg st0 row).
Proof.
  revert st. induction rows as [|row rows IH]; intros st; [intros []|].
  rewrite run_cons. intros [<- | H].
  - exists st, row. split; [now left | reflexivity].
  - destruct (IH _ H) as (st0 & row0 & Hin & ->).
    exists st0, row0. split; [now right | reflexivity].
Qed.

Lemma compute_info (cfg : Config F) (df_gs : list Row) :
  List.map info (compute_elo_timeseries ops cfg df_gs)
  = List.map row_info (sort_values df_gs).
Proof. apply run_info. Qed.

Lemma compute_length (cfg : Config F) (df_gs : list Row) :
  length (compute_elo_timeseries ops cfg df_gs) = length df_gs.
Proof.
  pose proof (f_equal (@length _) (compute_info cfg df_gs)) as H.
  rewrite !List.length_map in H. rewrite H.
  apply Permutation_length, sort_values_perm.
Qed.

(** C6. The rows are processed in the order of a stable ascending sort on
    (tourney_date, tourney_id, match_num) with nulls last: the processed
    sequence is a permutation of the input, it is sorted, rows with equal
    keys keep their input order, and the output holds exactly one record
    per row, the i-th record being that of the i-th processed row. *)
Theorem processing_order (cfg : Config F) (df_gs : list Row) :
  Permutation (sort_values df_gs) df_gs ∧
  StronglySorted key_le (sort_values df_gs) ∧
  (∀ k, List.filter (key_eqb k) (sort_values df_gs) = List.filter (key_eqb k) df_gs) ∧
  List.map info (compute_elo_timeseries ops cfg df_gs)
    = List.map row_info (sort_values df_gs) ∧
  length (compute_elo_timeseries ops cfg df_gs) = length df_gs.
Proof.
  split; [apply sort_values_perm|].
  split; [apply sort_values_sorted|].
  split; [intros k; apply sort_values_stable|].
  split; [apply compute_info | apply compute_length].
Qed.

End Loop.

(** ** One iteration *)

Section Step.
Context {F : Type} (ops : FloatOps F).
Implicit Types (cfg : Config F) (st : Store F) (row : Row) (m : gmap string F).

Lemma elo_get_fst cfg m p :
  fst (elo_get (seed_elo cfg) m p) = rating cfg m p.
Proof. unfold elo_get, rating. now destruct (m !! p). Qed.

Lemma elo_get_snd_lookup cfg m p :
  snd (elo_get (seed_elo cfg) m p) !! p = Some (rating cfg m p).
Proof.
  unfold elo_get, rating. destruct (m !! p) eqn:E; simpl; [assumption|].
  apply lookup_insert_eq.
Qed.

Lemma elo_get_snd_rating cfg m p q :
  rating cfg (snd (elo_get (seed_elo cfg) m p)) q = rating cfg m q.
Proof.
  unfold elo_get, rating. destruct (m !! p) eqn:E; simpl; [reflexivity|].
  destruct (decide (p = q)) as [->|Hne].
  - now rewrite lookup_insert_eq, E.
  - now rewrite lookup_insert_ne.
Qed.

Lemma elo_get_snd_ne cfg m p q :
  p ≠ q → snd (elo_get (seed_elo cfg) m p) !! q = m !! q.
Proof.
  intros Hne. unfold elo_get. destruct (m !! p); simpl; [reflexivity|].
  now rewrite lookup_insert_ne.
Qed.

(** [step] written out on the dictionary left by the decay. *)
Lemma step_unfold cfg st row :
  let wn := winner_name_norm row in
  let ln := loser_name_norm row in
  let m0 := apply_decay ops cfg st row in
  let ew := rating cfg m0 wn in
  let el := rating cfg m0 ln in
  let exp_w := expected_score ops ew el in
  let exp_l := fsub ops (f_int ops 1) exp_w in
  let k := fadd ops (base_k cfg) (fmul ops (gs_bonus_k cfg) (round_weight ops (round row))) in
  let ew_new := fadd ops ew (fmul ops k (fsub ops (f_int ops 1) exp_w)) in
  let el_new := fadd ops el (fmul ops k (fsub ops (f_int ops 0) exp_l)) in
  step ops cfg st row =
  ({| elo := <[ln := el_new]> (<[wn := ew_new]>
               (snd (elo_get (seed_elo cfg) (snd (elo_get (seed_elo cfg) m0 wn)) ln)));
      last_date := match tourney_date row with
                   | Some _ => <[ln := tourney_date row]>
                                 (<[wn := tourney_date row]> (last_date st))
                   | None => last_date st
                   end |},
   {| info := row_info row;
      winner_elo_pre := ew; loser_elo_pre := el;
      winner_elo_post := ew_new; loser_elo_post := el_new;
      k_used := k; exp_winner := exp_w; exp_loser := exp_l |}).
Proof.
  intros wn ln m0 ew el exp_w exp_l k ew_new el_new. unfold step.
  fold wn ln m0.
  pose proof (elo_get_fst cfg m0 wn) as Hw.
  pose proof (elo_get_snd_rating cfg m0 wn ln) as Hl'.
  destruct (elo_get (seed_elo cfg) m0 wn) as [ew' m1]. cbn [fst snd] in *.
  pose proof (elo_get_fst cfg m1 ln) as Hl.
  destruct (elo_get (seed_elo cfg) m1 ln) as [el' m2]. cbn [fst snd] in *.
  subst ew' el'. rewrite Hl'. reflexivity.
Qed.

Lemma step_pre_w cfg st row :
  winner_elo_pre (snd (step ops cfg st row))
  = rating cfg (apply_decay ops cfg st row) (winner_name_norm row).
Proof. now rewrite step_unfold. Qed.

Lemma step_pre_l cfg st row :
  loser_elo_pre (snd (step ops cfg st row))
  = rating cfg (apply_decay ops cfg st row) (loser_name_norm row).
Proof. now rewrite step_unfold. Qed.

Lemma step_updated cfg st row : updated ops cfg (snd (step ops cfg st row)).
Proof. rewrite step_unfold. repeat split. Qed.

Lemma step_last_date cfg st row :
  last_date (fst (step ops cfg st row)) =
  match tourney_date row with
  | Some d => <[loser_name_norm row := Some d]>
                (<[winner_name_norm row := Some d]> (last_date st))
  | None => last_date st
  end.
Proof. rewrite step_unfold. simpl. now destruct (tourney_date row). Qed.

(** The loser's entry is written last. *)
Lemma step_elo_l cfg st row :
  elo (fst (step ops cfg st row)) !! loser_name_norm row
  = Some (loser_elo_post (snd (step ops cfg st row))).
Proof. rewrite step_unfold. simpl. apply lookup_insert_eq. Qed.

Lemma step_elo_w cfg st row :
  winner_name_norm row ≠ loser_name_norm row →
  elo (fst (step ops cfg st row)) !! winner_name_norm row
  = Some (winner_elo_post (snd (step ops cfg st row))).
Proof.
  intros Hne. rewrite step_unfold. simpl.
  rewrite lookup_insert_ne by congruence. apply lookup_insert_eq.
Qed.

Lemma step_elo_other cfg st row q :
  q ≠ winner_name_norm row → q ≠ loser_name_norm row →
  rating cfg (elo (fst (step ops cfg st row))) q
  = rating cfg (apply_decay ops cfg st row) q.
Proof.
  intros Hw Hl. rewrite step_unfold. simpl. unfold rating at 1.
  rewrite !lookup_insert_ne by congruence.
  fold (rating cfg (snd (elo_get (seed_elo cfg)
          (snd (elo_get (seed_elo cfg) (apply_decay ops cfg st row)
             (winner_name_norm row))) (loser_name_norm row))) q).
  now rewrite !elo_get_snd_rating.
Qed.

Lemma run_updated cfg (rows : list Row) st (s : Snapshot F) :
  In s (run ops cfg st rows) → updated ops cfg s.
Proof.
  intros H. apply run_In in H as (st0 & row & _ & ->). apply step_updated.
Qed.

End Step.

(** ** Passive decay *)

Section Decay.
Context {F : Type} (ops : FloatOps F).
Implicit Types (cfg : Config F) (st : Store F) (row : Row) (m : gmap string F).

Lemma decay_player_hit cfg d last m p ld :
  last !! p = Some (Some ld) → 0 < days (d - ld) →
  decay_player ops cfg d last m p !! p
  = Some (fsub ops (rating cfg m p) (decay_amount ops cfg (days (d - ld)))).
Proof.
  intros Hl Hd. unfold decay_player. rewrite Hl. cbv zeta.
  replace (days (d - ld) =? 0) with false by (symmetry; apply Z.eqb_neq; lia).
  replace (days (d - ld) >? 0) with true by (symmetry; apply Z.gtb_lt; lia).
  cbn [negb andb].
  pose proof (elo_get_fst cfg m p) as Hv.
  destruct (elo_get (seed_elo cfg) m p) as [v m1]. cbn [fst] in Hv. subst v.
  apply lookup_insert_eq.
Qed.

Lemma decay_player_lookup_ne cfg d last m p q :
  p ≠ q → decay_player ops cfg d last m p !! q = m !! q.
Proof.
  intros Hne. unfold decay_player.
  destruct (last !! p) as [[ld|]|]; try reflexivity. cbv zeta.
  destruct (negb (days (d - ld) =? 0) && (days (d - ld) >? 0))%bool;
    [|reflexivity].
  pose proof (elo_get_snd_ne cfg m p q Hne) as Hq.
  destruct (elo_get (seed_elo cfg) m p) as [v m1]. cbn [snd] in Hq.
  now rewrite lookup_insert_ne.
Qed.

Lemma decay_player_miss cfg d last m p :
  (∀ ld, last !! p = Some (Some ld) → days (d - ld) <= 0) →
  decay_player ops cfg d last m p = m.
Proof.
  intros H. unfold decay_player.
  destruct (last !! p) as [[ld|]|]; try reflexivity. cbv zeta.
  specialize (H ld eq_refl).
  rewrite Z.gtb_ltb. replace (0 <? days (d - ld)) with false
    by (symmetry; apply Z.ltb_ge; lia).
  now rewrite andb_false_r.
Qed.

Lemma apply_decay_on cfg st row d :
  fgtb ops (decay_per_365d cfg) (f_int ops 0) = true →
  tourney_date row = Some d →
  apply_decay ops cfg st row =
  decay_player ops cfg d (last_date st)
    (decay_player ops cfg d (last_date st) (elo st) (winner_name_norm row))
    (loser_name_norm row).
Proof. intros Hg Hd. unfold apply_decay. now rewrite Hg, Hd. Qed.

Lemma apply_decay_undated cfg st row :
  tourney_date row = None → apply_decay ops cfg st row = elo st.
Proof.
  intros Hd. unfold apply_decay. rewrite Hd.
  now destruct (fgtb ops (decay_per_365d cfg) (f_int ops 0)).
Qed.

Lemma apply_decay_off cfg st row :
  fgtb ops (decay_per_365d cfg) (f_int ops 0) = false →
  apply_decay ops cfg st row = elo st.
Proof. intros Hg. unfold apply_decay. now rewrite Hg. Qed.

(** With two distinct players, each one who is due a decay has lost
    exactly one decay amount when the ratings are read. *)
Lemma apply_decay_distinct cfg st row d p ld :
  fgtb ops (decay_per_365d cfg) (f_int ops 0) = true →
  tourney_date row = Some d →
  winner_name_norm row ≠ loser_name_norm row →
  p = winner_name_norm row ∨ p = loser_name_norm row →
  last_date st !! p = Some (Some ld) → 0 < days (d - ld) →
  apply_decay ops cfg st row !! p
  = Some (fsub ops (rating cfg (elo st) p) (decay_amount ops cfg (days (d - ld)))).
Proof.
  intros Hg Hd Hne Hp Hl Hpos. rewrite (apply_decay_on _ _ _ _ Hg Hd).
  destruct Hp as [-> | ->].
  - rewrite decay_player_lookup_ne by congruence.
    now apply decay_player_hit.
  - rewrite (decay_player_hit _ _ _ _ _ _ Hl Hpos). unfold rating.
    now rewrite decay_player_lookup_ne.
Qed.

(** When both names are the same key, the loop visits it twice. *)
Lemma apply_decay_self cfg st row d p ld :
  fgtb ops (decay_per_365d cfg) (f_int ops 0) = true →
  tourney_date row = Some d →
  winner_name_norm row = p → loser_name_norm row = p →
  last_date st !! p = Some (Some ld) → 0 < days (d - ld) →
  apply_decay ops cfg st row !! p
  = Some (fsub ops
            (fsub ops (rating cfg (elo st) p) (decay_amount ops cfg (days (d - ld))))
            (decay_amount ops cfg (days (d - ld)))).
Proof.
  intros Hg Hd Hw Hlo Hl Hpos. rewrite (apply_decay_on _ _ _ _ Hg Hd), Hw, Hlo.
  rewrite (decay_player_hit _ _ _ _ _ _ Hl Hpos). unfold rating at 1.
  now rewrite (decay_player_hit _ _ _ _ _ _ Hl Hpos).
Qed.

End Decay.

(** ** Claims that hold for every float carrier *)

Section Generic.
Context {F : Type} (ops : FloatOps F).
Implicit Types (cfg : Config F) (st : Store F) (row : Row).

(** C1. In every iteration the ratings read are the stored ratings left
    by the decay, the winner's expected score is
    1 / (1 + 10 ** ((ratingL - ratingW) / 400)) on those two ratings, the
    exponent being opponent minus self, and the loser's expected score is
    1 minus the winner's; the same two equations hold on every record
    of the output. *)
Theorem expected_score_of_winner cfg :
  (∀ st row,
     winner_elo_pre (snd (step ops cfg st row))
       = rating cfg (apply_decay ops cfg st row) (winner_name_norm row) ∧
     loser_elo_pre (snd (step ops cfg st row))
       = rating cfg (apply_decay ops cfg st row) (loser_name_norm row)) ∧
  (∀ df_gs s, In s (compute_elo_timeseries ops cfg df_gs) →
     exp_winner s
       = fdiv ops (f_int ops 1)
           (fadd ops (f_int ops 1)
              (fpow ops (f_int ops 10)
                 (fdiv ops (fsub ops (loser_elo_pre s) (winner_elo_pre s))
                    (f_int ops 400)))) ∧
     exp_loser s = fsub ops (f_int ops 1) (exp_winner s)).
Proof.
  split.
  - intros st row. split; [apply step_pre_w | apply step_pre_l].
  - intros df_gs s Hs. apply run_updated in Hs.
    destruct Hs as (Hw & Hl & _). split; [exact Hw | exact Hl].
Qed.

(** C4 (amended). With a positive decay rate, a valid date and two
    distinct player keys, a participant whose last activity is recorded
    [idle_days > 0] days before the match has exactly
    decay_per_365d * idle_days / 365.0 subtracted from the stored
    rating; the reduced value is in the dictionary when the ratings are
    read, it is the pre-match rating of the record, and the expected
    score is computed from it. *)
Theorem decay_before_expectation cfg st row d p ld :
  fgtb ops (decay_per_365d cfg) (f_int ops 0) = true →
  tourney_date row = Some d →
  winner_name_norm row ≠ loser_name_norm row →
  last_date st !! p = Some (Some ld) →
  0 < days (d - ld) →
  let reduced :=
    fsub ops (rating cfg (elo st) p)
      (fdiv ops (fmul ops (decay_per_365d cfg) (f_int ops (days (d - ld))))
         (f_int ops 365)) in
  let s := snd (step ops cfg st row) in
  (p = winner_name_norm row →
     apply_decay ops cfg st row !! p = Some reduced ∧ winner_elo_pre s = reduced) ∧
  (p = loser_name_norm row →
     apply_decay ops cfg st row !! p = Some reduced ∧ loser_elo_pre s = reduced) ∧
  exp_winner s = expected_score ops (winner_elo_pre s) (loser_elo_pre s).
Proof.
  intros Hg Hd Hne Hl Hpos reduced s.
  assert (Hdec : p = winner_name_norm row ∨ p = loser_name_norm row →
                 apply_decay ops cfg st row !! p = Some reduced).
  { intros Hp. now apply (apply_decay_distinct ops cfg st row d p ld). }
  split; [|split].
  - intros Hp. split; [auto|]. subst s. rewrite step_pre_w. unfold rating at 1.
    rewrite <- Hp. now rewrite Hdec by auto.
  - intros Hp. split; [auto|]. subst s. rewrite step_pre_l. unfold rating at 1.
    rewrite <- Hp. now rewrite Hdec by auto.
  - apply step_updated.
Qed.

(** C5. An iteration whose row has no date skips the decay and leaves
    [last_date] as it was, and still reads the two ratings, computes the
    expected scores and the K-factor, commits both ratings and appends
    its record, with the numbers and the ratings a dated row gives when
    no decay fires; the output has one record per input row and every
    record satisfies the update equations. *)
Theorem undated_event cfg :
  (∀ st row, tourney_date row = None →
     apply_decay ops cfg st row = elo st ∧
     last_date (fst (step ops cfg st row)) = last_date st ∧
     winner_elo_pre (snd (step ops cfg st row))
       = rating cfg (elo st) (winner_name_norm row) ∧
     loser_elo_pre (snd (step ops cfg st row))
       = rating cfg (elo st) (loser_name_norm row) ∧
     updated ops cfg (snd (step ops cfg st row)) ∧
     elo (fst (step ops cfg st row)) !! loser_name_norm row
       = Some (loser_elo_post (snd (step ops cfg st row))) ∧
     (winner_name_norm row ≠ loser_name_norm row →
      elo (fst (step ops cfg st row)) !! winner_name_norm row
        = Some (winner_elo_post (snd (step ops cfg st row)))) ∧
     (∀ d, apply_decay ops cfg st (set_date (Some d) row) = elo st →
        numbers (snd (step ops cfg st (set_date (Some d) row)))
          = numbers (snd (step ops cfg st row)) ∧
        elo (fst (step ops cfg st (set_date (Some d) row)))
          = elo (fst (step ops cfg st row)))) ∧
  (∀ df_gs,
     length (compute_elo_timeseries ops cfg df_gs) = length df_gs ∧
     ∀ s, In s (compute_elo_timeseries ops cfg df_gs) → updated ops cfg s).
Proof.
  split.
  - intros st row Hd.
    pose proof (apply_decay_undated ops cfg st row Hd) as H0.
    split; [exact H0|].
    split; [now rewrite step_last_date, Hd|].
    split; [now rewrite step_pre_w, H0|].
    split; [now rewrite step_pre_l, H0|].
    split; [apply step_updated|].
    split; [apply step_elo_l|].
    split; [apply step_elo_w|].
    intros d Hdec. rewrite (step_unfold ops cfg st (set_date (Some d) row)).
    rewrite (step_unfold ops cfg st row). cbv zeta. rewrite Hdec, H0.
    split; reflexivity.
  - intros df_gs. split; [apply compute_length|].
    intros s. apply run_updated.
Qed.

End Generic.

(** ** Floats as reals: the algebra of the update *)

Section Reals.
Local Open Scope R_scope.
Implicit Types (cfg : Config R) (st : Store R) (row : Row) (s : Snapshot R).

Lemma expected_score_R (a b : R) :
  expected_score R_ops a b = 1 / (1 + Rpower 10 ((b - a) / 400)).
Proof. reflexivity. Qed.

Lemma Rpower_pos (x y : R) : 0 < Rpower x y.
Proof. unfold Rpower. apply exp_pos. Qed.

Lemma expected_score_self (a : R) : expected_score R_ops a a = 1 / 2.
Proof.
  rewrite expected_score_R.
  replace ((a - a) / 400) with 0 by lra.
  rewrite Rpower_O by lra. lra.
Qed.

Lemma expected_score_bounds (a b : R) :
  0 < expected_score R_ops a b < 1.
Proof.
  rewrite expected_score_R.
  pose proof (Rpower_pos 10 ((b - a) / 400)) as Ht.
  set (t := Rpower 10 ((b - a) / 400)) in *.
  assert (H1 : 0 < / (1 + t)) by (apply Rinv_0_lt_compat; lra).
  split; [lra|].
  apply Rmult_lt_reg_r with (1 + t); [lra|]. field_simplify; lra.
Qed.

(** The update equations in the notation of the reals. *)
Lemma updated_R cfg s :
  updated R_ops cfg s →
  exp_winner s = 1 / (1 + Rpower 10 ((loser_elo_pre s - winner_elo_pre s) / 400)) ∧
  exp_loser s = 1 - exp_winner s ∧
  k_used s = base_k cfg + gs_bonus_k cfg * round_weight R_ops (i_round (info s)) ∧
  winner_elo_post s = winner_elo_pre s + k_used s * (1 - exp_winner s) ∧
  loser_elo_post s = loser_elo_pre s + k_used s * (0 - exp_loser s).
Proof. intros H. exact H. Qed.

Lemma decay_off_R cfg : decay_per_365d cfg = 0 → fgtb R_ops (decay_per_365d cfg) (f_int R_ops 0) = false.
Proof. intros ->. simpl. destruct (Rgt_dec 0 0); [lra | reflexivity]. Qed.

Lemma decay_on_R cfg : decay_per_365d cfg > 0 → fgtb R_ops (decay_per_365d cfg) (f_int R_ops 0) = true.
Proof. intros H. simpl. destruct (Rgt_dec (decay_per_365d cfg) 0); [reflexivity | lra]. Qed.

Lemma snapshot_zero_sum cfg s :
  updated R_ops cfg s →
  winner_elo_post s - winner_elo_pre s = k_used s * (1 - exp_winner s) ∧
  loser_elo_post s - loser_elo_pre s = - (k_used s * (1 - exp_winner s)) ∧
  (winner_elo_post s - winner_elo_pre s) + (loser_elo_post s - loser_elo_pre s) = 0.
Proof.
  intros H. apply updated_R in H as (_ & Hl & _ & Hw' & Hl').
  rewrite Hw', Hl', Hl. repeat split; lra.
Qed.

Lemma winner_gain_formula cfg st row :
  winner_gain cfg st row
  = k_factor cfg row * (1 - exp_winner (snd (step R_ops cfg st row))).
Proof.
  unfold winner_gain, k_factor.
  pose proof (step_updated R_ops cfg st row) as H.
  apply updated_R in H as (_ & _ & Hk & Hw & _).
  rewrite Hw, Hk, step_info. simpl. lra.
Qed.



(** On the first match of two unseen players without decay the winner
    gains half the K-factor. *)
Lemma first_match_gain (k : R) :
  winner_gain (with_base_k k default_config) empty_store row_AB = k / 2.
Proof.
  rewrite winner_gain_formula. unfold k_factor.
  destruct (step_updated R_ops (with_base_k k default_config) empty_store row_AB)
    as (-> & _).
  rewrite step_pre_w, step_pre_l.
  rewrite apply_decay_off by (apply decay_off_R; reflexivity).
  unfold rating. simpl elo. rewrite !lookup_empty. cbn [default].
  rewrite expected_score_self. simpl. lra.
Qed.

(** C10. When the winner key and the loser key of a row are the same key,
    both expected scores are 0.5, the entry left in [elo] for that key
    is the loser-side update rating - k * expL = rating - k / 2 (the
    second assignment overwrites the first), and a decay that is due is
    subtracted twice before the rating is read (floats read as reals). *)
Theorem self_match cfg st row (p : string) :
  winner_name_norm row = p → loser_name_norm row = p →
  let s := snd (step R_ops cfg st row) in
  let st' := fst (step R_ops cfg st row) in
  winner_elo_pre s = loser_elo_pre s ∧
  exp_winner s = 1 / 2 ∧ exp_loser s = 1 / 2 ∧
  winner_elo_post s = winner_elo_pre s + k_used s / 2 ∧
  loser_elo_post s = loser_elo_pre s - k_used s * exp_loser s ∧
  loser_elo_post s = loser_elo_pre s - k_used s / 2 ∧
  elo st' !! p = Some (loser_elo_post s) ∧
  (apply_decay R_ops cfg st row = elo st →
     elo st' !! p = Some (rating cfg (elo st) p - k_factor cfg row / 2)) ∧
  (∀ d ld, decay_per_365d cfg > 0 → tourney_date row = Some d →
     last_date st !! p = Some (Some ld) → (0 < days (d - ld))%Z →
     loser_elo_pre s
     = rating cfg (elo st) p
       - decay_per_365d cfg * IZR (days (d - ld)) / 365
       - decay_per_365d cfg * IZR (days (d - ld)) / 365).
Proof.
  intros Hw Hl s st'.
  assert (Hpre : winner_elo_pre s = loser_elo_pre s)
    by (subst s; now rewrite step_pre_w, step_pre_l, Hw, Hl).
  pose proof (step_updated R_ops cfg st row) as H. fold s in H.
  apply updated_R in H as (He & Hel & Hk & Hpw & Hpl).
  assert (He2 : exp_winner s = 1 / 2).
  { rewrite He, Hpre. apply (expected_score_self (loser_elo_pre s)). }
  assert (Hst : elo st' !! p = Some (loser_elo_post s))
    by (subst s st'; rewrite <- Hl; apply step_elo_l).
  assert (Hel2 : exp_loser s = 1 / 2) by lra.
  rewrite He2 in Hpw. rewrite Hel2 in Hpl.
  split; [exact Hpre|]. split; [exact He2|]. split; [exact Hel2|].
  split; [lra|]. split; [rewrite Hel2; lra|].
  assert (Hpost : loser_elo_post s = loser_elo_pre s - k_used s / 2) by lra.
  split; [exact Hpost|]. split; [exact Hst|]. split.
  - intros H0. rewrite Hst, Hpost. f_equal.
    replace (k_used s) with (k_factor cfg row)
      by (unfold k_factor; subst s; now rewrite Hk, step_info).
    subst s. now rewrite step_pre_l, H0, Hl.
  - intros d ld Hg Hd Hlast Hpos. subst s. rewrite step_pre_l, Hl.
    unfold rating at 1.
    rewrite (apply_decay_self R_ops cfg st row d p ld
               (decay_on_R cfg Hg) Hd Hw Hl Hlast Hpos).
    reflexivity.
Qed.

End Reals.

(** ** The claims on sample data *)

Section Samples.
Local Open Scope R_scope.

Lemma rating_after_AB_a cfg : rating cfg (elo store_after_AB) "a" = 1516.
Proof.
  unfold rating, store_after_AB. cbn [elo].
  rewrite lookup_insert_ne by discriminate. now rewrite lookup_insert_eq.
Qed.

Lemma rating_after_AB_b cfg : rating cfg (elo store_after_AB) "b" = 1484.
Proof. unfold rating, store_after_AB. cbn [elo]. now rewrite lookup_insert_eq. Qed.

Lemma last_date_after_AB_a : last_date store_after_AB !! "a" = Some (Some 0%Z).
Proof.
  unfold store_after_AB. cbn [last_date].
  rewrite lookup_insert_ne by discriminate. now rewrite lookup_insert_eq.
Qed.

Lemma idle_100 : days (100 * NS_PER_DAY - 0) = 100%Z.
Proof. reflexivity. Qed.

Lemma decay_config_on :
  fgtb R_ops (decay_per_365d decay_config) (f_int R_ops 0) = true.
Proof. apply decay_on_R. simpl. lra. Qed.

(** [store_after_AB] is what the first match leaves, with or without a
    decay rate: nobody has a last activity yet. *)
Example store_after_AB_reached :
  fst (step R_ops decay_config empty_store row_AB) = store_after_AB.
Proof.
  rewrite step_unfold. cbv zeta. cbn [fst].
  assert (H0 : apply_decay R_ops decay_config empty_store row_AB = ∅).
  { rewrite (apply_decay_on R_ops decay_config empty_store row_AB 0%Z
               decay_config_on eq_refl).
    rewrite !decay_player_miss; [reflexivity | |];
      intros ld Hld; cbn in Hld; rewrite lookup_empty in Hld; discriminate. }
  rewrite H0. unfold rating. rewrite !lookup_empty. cbn [default].
  rewrite expected_score_self.
  change (winner_name_norm row_AB) with "a"%string.
  change (loser_name_norm row_AB) with "b"%string.
  change (tourney_date row_AB) with (Some 0%Z).
  change (round_weight R_ops (round row_AB)) with 8.
  cbn [seed_elo base_k gs_bonus_k decay_config f_int fadd fsub fmul R_ops].
  replace (1500 + (32 + 0 * 8) * (1 - 1 / 2)) with 1516 by lra.
  replace (1500 + (32 + 0 * 8) * (0 - (1 - 1 / 2))) with 1484 by lra.
  unfold store_after_AB, elo_get. rewrite lookup_empty. cbn [snd].
  rewrite lookup_insert_ne by discriminate. rewrite lookup_empty. cbn [snd].
  reflexivity.
Qed.

(** The scenario of the specification: A beats B from the seed ratings. *)
Example first_match_scenario :
  let s := snd (step R_ops default_config empty_store row_AB) in
  exp_winner s = 1 / 2 ∧ winner_elo_post s = 1516 ∧ loser_elo_post s = 1484.
Proof.
  cbv zeta. rewrite step_unfold. cbn [snd exp_winner winner_elo_post loser_elo_post].
  rewrite apply_decay_off by (apply decay_off_R; reflexivity).
  unfold rating. cbn [elo empty_store]. rewrite !lookup_empty. cbn [default].
  rewrite expected_score_self. simpl. repeat split; lra.
Qed.

(** An undated row goes last, and the two dated rows go by date. *)
Example sort_values_sample :
  sort_values [set_date None row_AB; row_BA_100; row_AB]
  = [row_AB; row_BA_100; set_date None row_AB].
Proof. reflexivity. Qed.

(** The label is upper-cased before the tests. *)
Example round_weight_lower_case :
  round_weight R_ops "qf" = 5 ∧ round_weight R_ops "r128" = 0
  ∧ round_weight R_ops "Q1" = 0.
Proof. rewrite !round_weight_is_chain. repeat split; reflexivity. Qed.

(** The decay scenario: 36.5 points per 365 days, 100 idle days. *)
Example decay_scenario :
  decay_amount R_ops decay_config 100 = 10.
Proof. unfold decay_amount. simpl. lra. Qed.

Lemma expected_score_of_winner_witness :
  let s := snd (step R_ops default_config empty_store row_AB) in
  exp_winner s
    = 1 / (1 + Rpower 10 ((loser_elo_pre s - winner_elo_pre s) / 400)) ∧
  exp_loser s = 1 - exp_winner s.
Proof.
  apply (proj2 (expected_score_of_winner R_ops default_config) [row_AB]).
  unfold compute_elo_timeseries. change (sort_values [row_AB]) with [row_AB].
  rewrite run_cons. left. reflexivity.
Defined.

(** The claim C4 as stated, for the winner: it fails on a row whose two
    names are the same key, where 20 points are subtracted instead of 10. *)
Lemma decay_before_expectation_counterexample :
  ¬ (∀ (cfg : Config R) (st : Store R) (row : Row) (d : Timestamp)
       (p : string) (ld : Timestamp),
       fgtb R_ops (decay_per_365d cfg) (f_int R_ops 0) = true →
       tourney_date row = Some d →
       last_date st !! p = Some (Some ld) →
       (0 < days (d - ld))%Z →
       p = winner_name_norm row →
       winner_elo_pre (snd (step R_ops cfg st row))
       = rating cfg (elo st) p
         - decay_per_365d cfg * IZR (days (d - ld)) / 365).
Proof.
  intros H.
  specialize (H decay_config store_after_AB row_self_100 (100 * NS_PER_DAY)%Z
                "a"%string 0%Z decay_config_on eq_refl last_date_after_AB_a
                ltac:(rewrite idle_100; lia) eq_refl).
  rewrite step_pre_w in H. unfold rating at 1 in H.
  change (winner_name_norm row_self_100) with "a"%string in H.
  rewrite (apply_decay_self R_ops decay_config store_after_AB row_self_100
             (100 * NS_PER_DAY)%Z "a"%string 0%Z decay_config_on eq_refl
             eq_refl eq_refl last_date_after_AB_a ltac:(rewrite idle_100; lia)) in H.
  rewrite idle_100, rating_after_AB_a in H.
  unfold decay_amount in H. simpl in H. lra.
Qed.

Lemma decay_before_expectation_witness :
  loser_elo_pre (snd (step R_ops decay_config store_after_AB row_BA_100)) = 1506.
Proof.
  destruct (decay_before_expectation R_ops decay_config store_after_AB row_BA_100
              (100 * NS_PER_DAY)%Z "a"%string 0%Z decay_config_on eq_refl
              ltac:(discriminate) last_date_after_AB_a
              ltac:(rewrite idle_100; lia)) as (_ & Hl & _).
  destruct (Hl eq_refl) as [_ ->].
  rewrite idle_100, rating_after_AB_a. simpl. lra.
Defined.

Lemma undated_event_witness :
  last_date (fst (step R_ops decay_config store_after_AB (set_date None row_BA_100)))
  = last_date store_after_AB.
Proof.
  apply (proj1 (undated_event R_ops decay_config) store_after_AB
           (set_date None row_BA_100) eq_refl).
Defined.

Lemma round_weight_table_redundant_witness :
  upper "r128" = "R128"%string ∧ f_int R_ops 0 = f_int R_ops 0.
Proof.
  apply (proj2 (round_weight_table_redundant R_ops) "r128"%string (f_int R_ops 0)).
  - reflexivity.
  - unfold mapping. change (upper "r128") with "R128"%string.
    apply lookup_insert_eq.
Defined.

Lemma self_match_witness :
  exp_winner (snd (step R_ops decay_config store_after_AB row_self_100)) = 1 / 2.
Proof.
  apply (self_match decay_config store_after_AB row_self_100 "a"%string
           eq_refl eq_refl).
Defined.

End Samples.

(** * Further properties of the pipeline *)

(** ** Sorting twice, and the order of the input *)

Section Resort.
Context {F : Type} (ops : FloatOps F).

Lemma key_compare_refl (a : Row) : key_compare a a = Eq.
Proof. apply key_compare_eq. auto. Qed.

Lemma key_eqb_refl (a : Row) : key_eqb a a = true.
Proof. unfold key_eqb. now rewrite key_compare_refl. Qed.

Lemma key_le_refl (a : Row) : key_le a a.
Proof. unfold key_le, key_leb. now rewrite key_compare_refl. Qed.

Lemma key_le_antisym (a b : Row) : key_le a b → key_le b a → key_eqb a b = true.
Proof.
  unfold key_le, key_leb, key_eqb. rewrite (key_compare_antisym b a).
  destruct (key_compare a b); simpl; congruence.
Qed.

Lemma sort_values_of_sorted (l : list Row) : Sorted key_le l → sort_values l = l.
Proof.
  induction 1 as [|x l Hs IH Hhd]; [reflexivity|].
  cbn [sort_values]. rewrite IH.
  destruct Hhd as [|y l' Hxy]; [reflexivity|].
  cbn [insert_row]. unfold key_le in Hxy. now rewrite Hxy.
Qed.

Lemma sort_values_twice (l : list Row) : sort_values (sort_values l) = sort_values l.
Proof. apply sort_values_of_sorted, StronglySorted_Sorted, sort_values_sorted. Qed.

(** X1. The frame that [load_and_filter] returns is already sorted, so the
    sort at the head of [compute_elo_timeseries] leaves it as it is: sorting
    twice is sorting once, and the engine gives the same records on the
    sorted frame as on the unsorted one. *)
Theorem resort_is_noop (cfg : Config F) (df_gs : list Row) :
  sort_values (sort_values df_gs) = sort_values df_gs ∧
  compute_elo_timeseries ops cfg (sort_values df_gs)
  = compute_elo_timeseries ops cfg df_gs.
Proof.
  split; [apply sort_values_twice|].
  unfold compute_elo_timeseries. now rewrite sort_values_twice.
Qed.

(** Two sorted lists that list the same rows, in the same order, under
    every key are the same list. *)
Lemma sorted_filter_unique (l1 l2 : list Row) :
  StronglySorted key_le l1 → StronglySorted key_le l2 →
  (∀ k, List.filter (key_eqb k) l1 = List.filter (key_eqb k) l2) →
  l1 = l2.
Proof.
  intros H1. revert l2. induction H1 as [|x l1 Hs1 IH Hx]; intros l2 H2 Hf.
  - destruct l2 as [|y l2]; [reflexivity|].
    specialize (Hf y). cbn [List.filter] in Hf.
    rewrite key_eqb_refl in Hf. discriminate.
  - destruct H2 as [|y l2 Hs2 Hy].
    + specialize (Hf x). cbn [List.filter] in Hf.
      rewrite key_eqb_refl in Hf. discriminate.
    + assert (Hyx : key_le y x).
      { assert (Hin : In x (List.filter (key_eqb x) (y :: l2))).
        { rewrite <- Hf. cbn [List.filter]. rewrite key_eqb_refl. now left. }
        apply List.filter_In in Hin as [[<- | Hin] _]; [apply key_le_refl|].
        rewrite List.Forall_forall in Hy. auto. }
      assert (Hxy : key_le x y).
      { assert (Hin : In y (List.filter (key_eqb y) (x :: l1))).
        { rewrite Hf. cbn [List.filter]. rewrite key_eqb_refl. now left. }
        apply List.filter_In in Hin as [[<- | Hin] _]; [apply key_le_refl|].
        rewrite List.Forall_forall in Hx. auto. }
      pose proof (key_le_antisym x y Hxy Hyx) as Heq.
      pose proof (Hf x) as Hfx. cbn [List.filter] in Hfx.
      rewrite key_eqb_refl, Heq in Hfx. injection Hfx as <- Hfx.
      f_equal. apply IH; [assumption|].
      intros k. specialize (Hf k). cbn [List.filter] in Hf.
      destruct (key_eqb k x); [now injection Hf | exact Hf].
Qed.

Lemma sort_values_same_classes (l1 l2 : list Row) :
  (∀ k, List.filter (key_eqb k) l1 = List.filter (key_eqb k) l2) →
  sort_values l1 = sort_values l2.
Proof.
  intros Hf. apply sorted_filter_unique; try apply sort_values_sorted.
  intros k. now rewrite !sort_values_stable.
Qed.

Lemma filter_perm {A} (f : A → bool) (l1 l2 : list A) :
  Permutation l1 l2 → Permutation (List.filter f l1) (List.filter f l2).
Proof.
  induction 1 as [|x l1 l2 _ IH|x y l|l1 l2 l3 _ IH1 _ IH2]; cbn [List.filter].
  - constructor.
  - destruct (f x); [now constructor | assumption].
  - destruct (f x), (f y); try reflexivity. apply perm_swap.
  - now transitivity (List.filter f l2).
Qed.

Lemma perm_all_equal {A} (l1 l2 : list A) :
  Permutation l1 l2 → (∀ a b, In a l1 → In b l1 → a = b) → l1 = l2.
Proof.
  revert l2. induction l1 as [|x l1 IH]; intros l2 Hp Hall.
  - apply Permutation_nil in Hp. now subst.
  - destruct l2 as [|y l2].
    + apply Permutation_sym, Permutation_nil in Hp. discriminate.
    + assert (Hy : In y (x :: l1))
        by (eapply Permutation_in; [symmetry; exact Hp | now left]).
      assert (x = y) by (apply Hall; [now left | assumption]). subst y.
      f_equal. apply IH.
      * now apply Permutation_cons_inv in Hp.
      * intros a b Ha Hb. apply Hall; now right.
Qed.

(** X2. When rows that share a sort key are equal rows, the order in which
    the rows are given does not matter: any permutation of the frame gives
    the same processing order and the same records. *)
Theorem input_order_irrelevant (cfg : Config F) (df1 df2 : list Row) :
  Permutation df1 df2 →
  (∀ a b, In a df1 → In b df1 → key_eqb a b = true → a = b) →
  sort_values df1 = sort_values df2 ∧
  compute_elo_timeseries ops cfg df1 = compute_elo_timeseries ops cfg df2.
Proof.
  intros Hp Huniq.
  assert (Hs : sort_values df1 = sort_values df2).
  { apply sort_values_same_classes. intros k.
    apply perm_all_equal; [now apply filter_perm|].
    intros a b Ha Hb.
    apply List.filter_In in Ha as [Ha Hka], Hb as [Hb Hkb].
    apply Huniq; try assumption.
    unfold key_eqb in *.
    destruct (key_compare k a) eqn:Ea; try discriminate.
    destruct (key_compare k b) eqn:Eb; try discriminate.
    now rewrite <- (key_compare_eq_l _ _ _ Ea), Eb. }
  split; [exact Hs|]. unfold compute_elo_timeseries. now rewrite Hs.
Qed.

Lemma run_app (cfg : Config F) (l1 l2 : list Row) (st : Store F) :
  run ops cfg st (l1 ++ l2)
  = run ops cfg st l1 ++ run ops cfg (final_store ops cfg st l1) l2.
Proof.
  revert st. induction l1 as [|row l1 IH]; intros st; [reflexivity|].
  cbn [app final_store]. rewrite !run_cons, IH. reflexivity.
Qed.

Lemma final_store_app (cfg : Config F) (l1 l2 : list Row) (st : Store F) :
  final_store ops cfg st (l1 ++ l2)
  = final_store ops cfg (final_store ops cfg st l1) l2.
Proof.
  revert st. induction l1 as [|row l1 IH]; intros st; [reflexivity|].
  cbn [app final_store]. apply IH.
Qed.

(** X3. The loop is a fold that only appends: the records of the rows
    processed first do not depend on the rows that follow, and processing
    a frame in two parts, the second part from the dictionaries the first
    part leaves, gives the records of the whole frame. *)
Theorem processing_resumes (cfg : Config F) (st : Store F) (l1 l2 : list Row) :
  run ops cfg st (l1 ++ l2)
    = run ops cfg st l1 ++ run ops cfg (final_store ops cfg st l1) l2 ∧
  firstn (length l1) (run ops cfg st (l1 ++ l2)) = run ops cfg st l1 ∧
  final_store ops cfg st (l1 ++ l2)
    = final_store ops cfg (final_store ops cfg st l1) l2.
Proof.
  split; [apply run_app|]. split; [|apply final_store_app].
  rewrite run_app.
  assert (Hlen : length l1 = length (run ops cfg st l1)).
  { pose proof (f_equal (@length _) (run_info ops cfg l1 st)) as H.
    rewrite !List.length_map in H. now symmetry. }
  rewrite Hlen, List.firstn_app, Nat.sub_diag, List.firstn_all.
  cbn [firstn]. apply List.app_nil_r.
Qed.

End Resort.

(** ** What the loop keeps in its dictionaries *)

Section StoreFacts.
Context {F : Type} (ops : FloatOps F).
Implicit Types (cfg : Config F) (st : Store F) (row : Row) (m : gmap string F).

Lemma elo_get_snd_is_Some cfg m p q :
  is_Some (m !! q) → is_Some (snd (elo_get (seed_elo cfg) m p) !! q).
Proof.
  intros H. unfold elo_get. destruct (m !! p); [exact H|]. cbn [snd].
  apply lookup_insert_is_Some. destruct (decide (p = q)); auto.
Qed.

Lemma decay_player_is_Some cfg d last m p q :
  is_Some (m !! q) → is_Some (decay_player ops cfg d last m p !! q).
Proof.
  intros H. unfold decay_player.
  destruct (last !! p) as [[ld|]|]; try exact H. cbv zeta.
  destruct (negb (days (d - ld) =? 0) && (days (d - ld) >? 0))%bool; [|exact H].
  pose proof (elo_get_snd_is_Some cfg m p q H) as H1.
  destruct (elo_get (seed_elo cfg) m p) as [v m1]. cbn [snd] in H1.
  apply lookup_insert_is_Some. destruct (decide (p = q)); auto.
Qed.

Lemma apply_decay_is_Some cfg st row q :
  is_Some (elo st !! q) → is_Some (apply_decay ops cfg st row !! q).
Proof.
  intros H. unfold apply_decay.
  destruct (fgtb ops (decay_per_365d cfg) (f_int ops 0)); [|exact H].
  destruct (tourney_date row) as [d|]; [|exact H].
  cbn [fold_left]. now do 2 apply decay_player_is_Some.
Qed.

Lemma apply_decay_other cfg st row q :
  ¬ plays q row → apply_decay ops cfg st row !! q = elo st !! q.
Proof.
  intros Hq. unfold plays in Hq. unfold apply_decay.
  destruct (fgtb ops (decay_per_365d cfg) (f_int ops 0)); [|reflexivity].
  destruct (tourney_date row) as [d|]; [|reflexivity].
  cbn [fold_left]. rewrite !decay_player_lookup_ne; [reflexivity | |];
    intros E; symmetry in E; tauto.
Qed.

Lemma step_elo_is_Some cfg st row q :
  is_Some (elo st !! q) → is_Some (elo (fst (step ops cfg st row)) !! q).
Proof.
  intros H. rewrite step_unfold. cbn [fst elo].
  apply lookup_insert_is_Some.
  destruct (decide (loser_name_norm row = q)); [now left | right].
  split; [assumption|]. apply lookup_insert_is_Some.
  destruct (decide (winner_name_norm row = q)); [now left | right].
  split; [assumption|].
  now do 2 apply elo_get_snd_is_Some; apply apply_decay_is_Some.
Qed.

Lemma step_elo_players cfg st row q :
  plays q row → is_Some (elo (fst (step ops cfg st row)) !! q).
Proof.
  intros Hq. rewrite step_unfold. cbn [fst elo].
  apply lookup_insert_is_Some.
  destruct (decide (loser_name_norm row = q)); [now left | right].
  split; [assumption|]. apply lookup_insert_is_Some. left.
  destruct Hq; congruence.
Qed.

Lemma step_frame cfg st row q :
  ¬ plays q row →
  elo (fst (step ops cfg st row)) !! q = elo st !! q ∧
  last_date (fst (step ops cfg st row)) !! q = last_date st !! q.
Proof.
  intros Hq. pose proof Hq as Hq'. unfold plays in Hq'. split.
  - rewrite step_unfold. cbn [fst elo].
    rewrite !lookup_insert_ne by (intros E; symmetry in E; tauto).
    rewrite !elo_get_snd_ne by (intros E; symmetry in E; tauto).
    now apply apply_decay_other.
  - rewrite step_last_date. destruct (tourney_date row); [|reflexivity].
    now rewrite !lookup_insert_ne by (intros E; symmetry in E; tauto).
Qed.

Lemma step_store_ok cfg st row : store_ok st → store_ok (fst (step ops cfg st row)).
Proof.
  intros Hok p v Hp. rewrite step_last_date in Hp.
  destruct (tourney_date row) as [d|] eqn:Hd.
  - apply lookup_insert_Some in Hp as [[<- <-] | [Hne Hp]].
    { split; [eauto|]. apply step_elo_players. now right. }
    apply lookup_insert_Some in Hp as [[<- <-] | [Hne' Hp]].
    { split; [eauto|]. apply step_elo_players. now left. }
    destruct (Hok p v Hp) as [Hv He]. split; [exact Hv|].
    now apply step_elo_is_Some.
  - destruct (Hok p v Hp) as [Hv He]. split; [exact Hv|].
    now apply step_elo_is_Some.
Qed.

Lemma empty_store_ok : store_ok (@empty_store F).
Proof. intros p v Hp. cbn in Hp. rewrite lookup_empty in Hp. discriminate. Qed.

Lemma final_store_ok cfg (rows : list Row) st :
  store_ok st → store_ok (final_store ops cfg st rows).
Proof.
  revert st. induction rows as [|row rows IH]; intros st Hok; [exact Hok|].
  cbn [final_store]. now apply IH, step_store_ok.
Qed.

Lemma final_store_is_Some cfg (rows : list Row) st q :
  is_Some (elo st !! q) → is_Some (elo (final_store ops cfg st rows) !! q).
Proof.
  revert st. induction rows as [|row rows IH]; intros st H; [exact H|].
  cbn [final_store]. now apply IH, step_elo_is_Some.
Qed.

(** X4. A match touches the entries of its two players only: a player who
    plays in none of the rows processed has the same rating entry and the
    same activity date at the end as at the start, decay included. *)
Theorem bystanders_untouched cfg st (rows : list Row) (q : string) :
  (∀ row, In row rows → ¬ plays q row) →
  elo (final_store ops cfg st rows) !! q = elo st !! q ∧
  last_date (final_store ops cfg st rows) !! q = last_date st !! q.
Proof.
  revert st. induction rows as [|row rows IH]; intros st Hq; [now split|].
  cbn [final_store].
  destruct (IH (fst (step ops cfg st row))) as [He Hl].
  { intros r Hr. apply Hq. now right. }
  destruct (step_frame cfg st row q) as [He' Hl'].
  { apply Hq. now left. }
  split; congruence.
Qed.

(** X5. Started from the empty dictionaries, the loop only ever stores
    valid dates in [last_date], and every player who has an activity date
    has a rating: the test [pd.notna(last_date[p])] never fails and the
    decay never reads the rating of an unseen player. *)
Theorem dictionaries_consistent cfg (rows : list Row) (p : string)
    (v : option Timestamp) :
  last_date (final_store ops cfg empty_store rows) !! p = Some v →
  (∃ d, v = Some d) ∧
  is_Some (elo (final_store ops cfg empty_store rows) !! p).
Proof.
  intros Hp.
  destruct (final_store_ok cfg rows empty_store empty_store_ok p v Hp)
    as [[d ->] He].
  split; [now exists d | exact He].
Qed.

(** X6. No rating is ever removed: a player with a rating keeps an entry
    through any further rows, and at the end of the loop every winner and
    every loser of a processed row has an entry. *)
Theorem ratings_never_removed cfg st (rows : list Row) :
  (∀ q, is_Some (elo st !! q) →
        is_Some (elo (final_store ops cfg st rows) !! q)) ∧
  (∀ row q, In row rows → plays q row →
        is_Some (elo (final_store ops cfg st rows) !! q)).
Proof.
  split; [intros q; apply final_store_is_Some|].
  revert st. induction rows as [|row rows IH]; intros st r q [];
    cbn [final_store].
  - subst r. intros Hq. now apply final_store_is_Some, step_elo_players.
  - now apply IH.
Qed.

(** X7. A player whose last recorded activity is less than one full day
    before the match, on the same date or on a later date, is not
    decayed: when this holds for both players the decay leaves the ratings
    as they are, whatever the decay rate.  Rows of one tournament share
    their [tourney_date], so no decay applies between its rounds. *)
Theorem no_decay_within_a_day cfg st row (d : Timestamp) :
  tourney_date row = Some d →
  (∀ p ld, plays p row → last_date st !! p = Some (Some ld) →
           d - ld < NS_PER_DAY) →
  apply_decay ops cfg st row = elo st.
Proof.
  intros Hd Hrecent. unfold apply_decay. rewrite Hd.
  destruct (fgtb ops (decay_per_365d cfg) (f_int ops 0)); [|reflexivity].
  cbn [fold_left].
  assert (Hmiss : ∀ p m, plays p row →
            decay_player ops cfg d (last_date st) m p = m).
  { intros p m Hp. apply decay_player_miss. intros ld Hld.
    specialize (Hrecent p ld Hp Hld). unfold days.
    assert (H : (d - ld) / NS_PER_DAY < 1); [|lia].
    apply Z.div_lt_upper_bound; unfold NS_PER_DAY in *; lia. }
  rewrite !Hmiss; [reflexivity | |]; unfold plays; auto.
Qed.

End StoreFacts.

(** ** Round weights: range and case *)

Section RoundWeightRange.
Context {F : Type} (ops : FloatOps F).

Lemma upper_ascii_idem (c : ascii) : upper_ascii (upper_ascii c) = upper_ascii c.
Proof. destruct c as [[] [] [] [] [] [] [] []]; reflexivity. Qed.

Lemma upper_idem (s : string) : upper (upper s) = upper s.
Proof.
  induction s as [|c s IH]; [reflexivity|].
  cbn [upper]. now rewrite upper_ascii_idem, IH.
Qed.

Lemma first_match_weights (r : string) : In (first_match round_rules r) weights.
Proof.
  unfold round_rules, weights. cbn [first_match].
  repeat match goal with |- context [if ?b then _ else _] => destruct b end;
    cbn; tauto.
Qed.

Lemma first_match_8 (r : string) :
  first_match round_rules r = 8 ↔ r = "F"%string.
Proof.
  unfold round_rules. cbn [first_match].
  destruct (String.eqb "F" r) eqn:E.
  - apply String.eqb_eq in E. split; auto.
  - apply String.eqb_neq in E. split; [|intros ->; congruence].
    repeat match goal with |- context [if ?b then _ else _] => destruct b end;
      discriminate.
Qed.

(** X8. [round_weight] only gives one of the weights 0, 2, 3, 4, 5, 6, 8,
    it does not depend on the case of the label, and the weight is that of
    the first rule of the list that the upper-cased label passes. *)
Theorem round_weight_range (r : string) :
  (∃ w, In w weights ∧ round_weight ops r = f_int ops w) ∧
  round_weight ops (upper r) = round_weight ops r.
Proof.
  split.
  - exists (first_match round_rules (upper r)).
    split; [apply first_match_weights|].
    rewrite round_weight_is_chain. apply chain_is_first_match.
  - rewrite !round_weight_is_chain. unfold round_weight_chain.
    now rewrite upper_idem.
Qed.

End RoundWeightRange.

(** ** Floats as reals: the weight of the final *)

Section RealsMore.
Local Open Scope R_scope.
Implicit Types (cfg : Config R) (st : Store R) (row : Row) (s : Snapshot R).

Lemma round_weight_R (r : string) :
  round_weight R_ops r = IZR (first_match round_rules (upper r)).
Proof. rewrite round_weight_is_chain. apply (chain_is_first_match R_ops). Qed.

Lemma round_weight_bounds (r : string) : 0 <= round_weight R_ops r <= 8.
Proof.
  rewrite round_weight_R.
  pose proof (first_match_weights (upper r)) as H. unfold weights in H.
  cbn [In] in H.
  destruct H as [<-|[<-|[<-|[<-|[<-|[<-|[<-|[]]]]]]]]; lra.
Qed.

(** X9. Only the label F itself, in any case, gets the weight 8.0: a label
    that merely contains an F gets the weight of a later rule. *)
Theorem final_weight_only_for_F (r : string) :
  round_weight R_ops r = 8 ↔ upper r = "F"%string.
Proof.
  rewrite round_weight_R, <- first_match_8. split; [|now intros ->].
  apply eq_IZR.
Qed.

End RealsMore.

(** ** Floats as reals: the size and the sign of the update *)

Section RealsUpdate.
Local Open Scope R_scope.
Implicit Types (cfg : Config R) (st : Store R) (row : Row) (s : Snapshot R).

Lemma updated_exp_bounds cfg s : updated R_ops cfg s → 0 < exp_winner s < 1.
Proof. intros (-> & _). apply expected_score_bounds. Qed.

Lemma updated_k_bounds cfg s :
  updated R_ops cfg s → 0 <= gs_bonus_k cfg →
  base_k cfg <= k_used s <= base_k cfg + 8 * gs_bonus_k cfg.
Proof.
  intros H Hb. apply updated_R in H as (_ & _ & -> & _).
  pose proof (round_weight_bounds (i_round (info s))) as Hw.
  set (w := round_weight R_ops (i_round (info s))) in *.
  split; nra.
Qed.

(** X11. With a base K-factor and a round bonus that are not negative,
    on every record of the output the K-factor used lies between base_k
    and base_k + 8 * gs_bonus_k, the winner's rating does not go down, the
    loser's rating does not go up, and neither moves by more than the
    K-factor used (floats read as reals). *)
Theorem update_bounded cfg (df_gs : list Row) s :
  0 <= base_k cfg → 0 <= gs_bonus_k cfg →
  In s (compute_elo_timeseries R_ops cfg df_gs) →
  base_k cfg <= k_used s <= base_k cfg + 8 * gs_bonus_k cfg ∧
  winner_elo_pre s <= winner_elo_post s <= winner_elo_pre s + k_used s ∧
  loser_elo_pre s - k_used s <= loser_elo_post s <= loser_elo_pre s.
Proof.
  intros Hk Hb Hs. apply run_updated in Hs.
  pose proof (updated_k_bounds cfg s Hs Hb) as Hku.
  pose proof (updated_exp_bounds cfg s Hs) as He.
  destruct (snapshot_zero_sum cfg s Hs) as (Hw & Hl & _).
  split; [exact Hku|].
  set (k := k_used s) in *. set (e := exp_winner s) in *.
  assert (0 <= k * (1 - e) <= k) by (split; nra).
  split; split; lra.
Qed.

Lemma decay_player_rating_le cfg (d : Timestamp) last (m : gmap string R) p q :
  0 < decay_per_365d cfg →
  rating cfg (decay_player R_ops cfg d last m p) q <= rating cfg m q.
Proof.
  intros Hdec. destruct (decide (p = q)) as [<-|Hne].
  - destruct (last !! p) as [[ld|]|] eqn:El.
    + destruct (Z_lt_le_dec 0 (days (d - ld))) as [Hpos|Hneg].
      * unfold rating at 1.
        rewrite (decay_player_hit R_ops cfg d last m p ld El Hpos).
        cbn [default]. unfold decay_amount. simpl.
        assert (0 < IZR (days (d - ld))) by now apply IZR_lt.
        assert (0 <= decay_per_365d cfg * IZR (days (d - ld)) / 365).
        { apply Rmult_le_pos; [|lra]. apply Rmult_le_pos; lra. }
        lra.
      * rewrite decay_player_miss; [lra|].
        intros ld' Hld'. pose proof (eq_trans (eq_sym El) Hld') as E.
        injection E as <-. exact Hneg.
    + rewrite decay_player_miss; [lra|]. intros ld Hld.
      pose proof (eq_trans (eq_sym El) Hld) as E. discriminate E.
    + rewrite decay_player_miss; [lra|]. intros ld Hld.
      pose proof (eq_trans (eq_sym El) Hld) as E. discriminate E.
  - unfold rating. rewrite decay_player_lookup_ne by assumption. lra.
Qed.

(** X13. A positive decay rate never raises a rating: after the decay of
    an iteration every player's rating is at most what it was before
    (floats read as reals). *)
Theorem decay_never_raises cfg st row (q : string) :
  0 < decay_per_365d cfg →
  rating cfg (apply_decay R_ops cfg st row) q <= rating cfg (elo st) q.
Proof.
  intros Hdec. unfold apply_decay.
  destruct (fgtb R_ops (decay_per_365d cfg) (f_int R_ops 0)); [|lra].
  destruct (tourney_date row) as [d|]; [|lra].
  cbn [fold_left].
  eapply Rle_trans; [now apply decay_player_rating_le|].
  now apply decay_player_rating_le.
Qed.

End RealsUpdate.

(** ** Name keys *)

Section Names.
Local Open Scope string_scope.

Lemma string_pair_ind (P : string → Prop) :
  P "" → (∀ c, P (String c "")) →
  (∀ c1 c2 s, P s → P (String c2 s) → P (String c1 (String c2 s))) →
  ∀ s, P s.
Proof.
  intros H0 H1 H2 s.
  assert (H : P s ∧ ∀ c, P (String c s)); [|tauto].
  induction s as [|c s [IH1 IH2]]; split; auto.
Qed.

(** *** Replacing two spaces by one *)

Lemma replace2_pair (s : string) :
  replace "  " " " (String " " (String " " s)) = String " " (replace "  " " " s).
Proof. destruct s; reflexivity. Qed.

Lemma replace2_other (c : ascii) (s : string) :
  c ≠ " "%char ∨ first_char s ≠ Some " "%char →
  replace "  " " " (String c s) = String c (replace "  " " " s).
Proof.
  intros H. unfold replace. cbn [replace_from].
  destruct (String.prefix "  " (String c s)) eqn:E; [exfalso|reflexivity].
  cbn [String.prefix] in E.
  destruct (ascii_dec " " c) as [<-|Hc]; [|discriminate].
  destruct s as [|c' s]; cbn [String.prefix] in E; [discriminate|].
  destruct (ascii_dec " " c') as [<-|Hc']; [|discriminate].
  cbn in H. destruct H as [H|H]; congruence.
Qed.

Lemma replace2_cases (P : string → string → Prop) :
  P "" "" →
  (∀ s, P s (replace "  " " " s) →
        P (String " " (String " " s)) (String " " (replace "  " " " s))) →
  (∀ c s, c ≠ " "%char ∨ first_char s ≠ Some " "%char →
        P s (replace "  " " " s) → P (String c s) (String c (replace "  " " " s))) →
  ∀ s, P s (replace "  " " " s).
Proof.
  intros H0 Hp Ho. induction s as [| |c1 c2 s IH1 IH2] using string_pair_ind.
  - exact H0.
  - rewrite replace2_other by (right; discriminate). apply Ho; [right; discriminate|].
    exact H0.
  - destruct (ascii_dec c1 " ") as [->|H1].
    + destruct (ascii_dec c2 " ") as [->|H2].
      * rewrite replace2_pair. now apply Hp.
      * rewrite replace2_other by (right; cbn; congruence).
        apply Ho; [right; cbn; congruence | exact IH2].
    + rewrite replace2_other by now left. apply Ho; [now left | exact IH2].
Qed.

Lemma replace2_first (s : string) :
  first_char (replace "  " " " s) = first_char s.
Proof.
  apply (replace2_cases (λ s r, first_char r = first_char s)); reflexivity.
Qed.

Lemma replace2_empty (s : string) : replace "  " " " s = "" → s = "".
Proof.
  apply (replace2_cases (λ s r, r = "" → s = "")); [auto | |]; discriminate.
Qed.

Lemma last_char_cons (c : ascii) (s : string) :
  s ≠ "" → last_char (String c s) = last_char s.
Proof. destruct s; [congruence | reflexivity]. Qed.

Lemma replace2_last (s : string) :
  last_char (replace "  " " " s) = last_char s.
Proof.
  apply (replace2_cases (λ s r, last_char r = last_char s)); [reflexivity | |].
  - intros t IH. destruct t as [|c t]; [reflexivity|].
    rewrite (last_char_cons " " (String " " (String c t))) by discriminate.
    rewrite (last_char_cons " " (String c t)) by discriminate.
    rewrite last_char_cons; [exact IH|].
    intros E. apply replace2_empty in E. discriminate.
  - intros c t _ IH. destruct t as [|c' t]; [reflexivity|].
    rewrite (last_char_cons c (String c' t)) by discriminate.
    rewrite last_char_cons; [exact IH|].
    intros E. apply replace2_empty in E. discriminate.
Qed.

Lemma replace2_In (c : ascii) (s : string) :
  In c (list_ascii_of_string (replace "  " " " s)) →
  In c (list_ascii_of_string s).
Proof.
  apply (replace2_cases
           (λ s r, In c (list_ascii_of_string r) → In c (list_ascii_of_string s))).
  - auto.
  - intros t IH [H|H]; [now left | right; right; auto].
  - intros c' t _ IH [H|H]; [now left | right; auto].
Qed.

Lemma replace2_length (s : string) :
  (String.length (replace "  " " " s) <= String.length s)%nat.
Proof.
  apply (replace2_cases (λ s r, (String.length r <= String.length s)%nat));
    cbn [String.length]; intros; lia.
Qed.

Lemma replace2_spaces (n : nat) (v : string) :
  first_char v ≠ Some " "%char →
  replace "  " " " (spaces n ++ v) = spaces (Nat.div2 (S n)) ++ replace "  " " " v.
Proof.
  intros Hv.
  assert (H : (replace "  " " " (spaces n ++ v)
               = spaces (Nat.div2 (S n)) ++ replace "  " " " v) ∧
              (replace "  " " " (spaces (S n) ++ v)
               = spaces (Nat.div2 (S (S n))) ++ replace "  " " " v)); [|tauto].
  induction n as [|n [IH1 IH2]].
  - split; [reflexivity|]. change (spaces 1 ++ v) with (String " " v).
    now rewrite replace2_other by now right.
  - split; [exact IH2|].
    change (spaces (S (S n)) ++ v) with (String " " (String " " (spaces n ++ v))).
    rewrite replace2_pair, IH1. reflexivity.
Qed.

End Names.

Section NameKeys.
Local Open Scope string_scope.

(** *** Lower case and white space *)

Lemma lower_ascii_not_upper (c : ascii) : is_upper (lower_ascii c) = false.
Proof. destruct c as [[] [] [] [] [] [] [] []]; reflexivity. Qed.

Lemma lower_ascii_space (c : ascii) : is_space (lower_ascii c) = is_space c.
Proof. destruct c as [[] [] [] [] [] [] [] []]; reflexivity. Qed.

Lemma lower_upper_ascii (c : ascii) : lower_ascii (upper_ascii c) = lower_ascii c.
Proof. destruct c as [[] [] [] [] [] [] [] []]; reflexivity. Qed.

Lemma lower_upper (s : string) : lower (upper s) = lower s.
Proof.
  induction s as [|c s IH]; [reflexivity|].
  cbn [upper lower]. now rewrite lower_upper_ascii, IH.
Qed.

Lemma lower_app (a b : string) : lower (a ++ b) = lower a ++ lower b.
Proof. induction a as [|c a IH]; [reflexivity|]. simpl. now rewrite IH. Qed.

Lemma lower_spaces (n : nat) : lower (spaces n) = spaces n.
Proof. induction n as [|n IH]; [reflexivity|]. cbn [spaces lower]. now rewrite IH. Qed.

Lemma all_space_lower (ws : string) : all_space (lower ws) = all_space ws.
Proof.
  induction ws as [|c ws IH]; [reflexivity|].
  cbn [lower all_space]. now rewrite lower_ascii_space, IH.
Qed.

Lemma lower_In (c : ascii) (s : string) :
  In c (list_ascii_of_string (lower s)) → is_upper c = false.
Proof.
  induction s as [|c' s IH]; [intros []|].
  intros [<- | H]; [apply lower_ascii_not_upper | auto].
Qed.

(** *** [strip] *)

Lemma lstrip_In (c : ascii) (s : string) :
  In c (list_ascii_of_string (lstrip s)) → In c (list_ascii_of_string s).
Proof.
  induction s as [|c' s IH]; [auto|]. cbn [lstrip].
  destruct (is_space c'); [right; auto | auto].
Qed.

Lemma rstrip_In (c : ascii) (s : string) :
  In c (list_ascii_of_string (rstrip s)) → In c (list_ascii_of_string s).
Proof.
  induction s as [|c' s IH]; [auto|]. cbn [rstrip].
  destruct (rstrip s) as [|c'' r].
  - destruct (is_space c'); [intros [] | intros [<- | []]; now left].
  - intros [<- | H]; [now left | right; auto].
Qed.

Lemma lstrip_first (c : ascii) (s : string) :
  first_char (lstrip s) = Some c → is_space c = false.
Proof.
  induction s as [|c' s IH]; [discriminate|]. cbn [lstrip].
  destruct (is_space c') eqn:E; [exact IH|]. cbn. now intros [= <-].
Qed.

Lemma last_char_Some_cons (c0 c : ascii) (s : string) :
  last_char s = Some c → last_char (String c0 s) = Some c.
Proof. destruct s; [discriminate | auto]. Qed.

Lemma lstrip_last (c : ascii) (s : string) :
  last_char (lstrip s) = Some c → last_char s = Some c.
Proof.
  induction s as [|c' s IH]; [auto|]. cbn [lstrip].
  destruct (is_space c'); [|auto].
  intros H. now apply last_char_Some_cons, IH.
Qed.

Lemma rstrip_last (c : ascii) (s : string) :
  last_char (rstrip s) = Some c → is_space c = false.
Proof.
  induction s as [|c' s IH]; [discriminate|]. cbn [rstrip].
  destruct (rstrip s) as [|c'' r].
  - destruct (is_space c') eqn:E; [discriminate|]. cbn. now intros [= <-].
  - exact IH.
Qed.

Lemma append_nil_l (s : string) : "" ++ s = s.
Proof. reflexivity. Qed.

Lemma append_cons (c : ascii) (a b : string) : String c a ++ b = String c (a ++ b).
Proof. reflexivity. Qed.

Lemma lstrip_app_space (ws s : string) :
  all_space ws = true → lstrip (ws ++ s) = lstrip s.
Proof.
  induction ws as [|c ws IH]; [reflexivity|]. cbn [all_space].
  intros [Hc Hws]%andb_true_iff. rewrite append_cons. cbn [lstrip].
  rewrite Hc. auto.
Qed.

Lemma rstrip_all_space (ws : string) : all_space ws = true → rstrip ws = "".
Proof.
  induction ws as [|c ws IH]; [reflexivity|]. cbn [all_space].
  intros [Hc Hws]%andb_true_iff. cbn [rstrip]. now rewrite (IH Hws), Hc.
Qed.

Lemma rstrip_app_space (s ws : string) :
  all_space ws = true → rstrip (s ++ ws) = rstrip s.
Proof.
  intros Hws. induction s as [|c s IH].
  - rewrite append_nil_l. now apply rstrip_all_space.
  - rewrite append_cons. cbn [rstrip]. now rewrite IH.
Qed.

Lemma rstrip_space_app (ws s : string) :
  all_space ws = true →
  rstrip (ws ++ s) = match rstrip s with "" => "" | _ => ws ++ rstrip s end.
Proof.
  induction ws as [|c ws IH].
  - intros _. rewrite append_nil_l. now destruct (rstrip s).
  - cbn [all_space]. intros [Hc Hws]%andb_true_iff.
    rewrite append_cons. cbn [rstrip].
    rewrite (IH Hws). destruct (rstrip s) as [|c' r].
    + now rewrite Hc.
    + now destruct ws.
Qed.

Lemma strip_surrounded (ws1 s ws2 : string) :
  all_space ws1 = true → all_space ws2 = true →
  strip (ws1 ++ s ++ ws2) = strip s.
Proof.
  intros H1 H2. unfold strip.
  rewrite (rstrip_space_app ws1 (s ++ ws2) H1), (rstrip_app_space s ws2 H2).
  destruct (rstrip s) as [|c r] eqn:E; [reflexivity|].
  now apply lstrip_app_space.
Qed.

Lemma strip_word (x y : ascii) (s : string) :
  is_space x = false → is_space y = false →
  strip (String x (s ++ String y "")) = String x (s ++ String y "").
Proof.
  intros Hx Hy. unfold strip.
  assert (Hr : ∀ t, rstrip (t ++ String y "") = t ++ String y "").
  { induction t as [|c t IH].
    - rewrite append_nil_l. cbn [rstrip]. now rewrite Hy.
    - rewrite append_cons. cbn [rstrip]. rewrite IH.
      destruct t; reflexivity. }
  rewrite <- append_cons, Hr, append_cons. cbn [lstrip]. now rewrite Hx.
Qed.

(** X15. A normalised name has no letter A to Z and neither starts nor
    ends with a white-space character, whatever the transliteration
    returns. *)
Theorem normalize_name_form (unidecode : string → string)
    (name : option string) (r : string) :
  normalize_name unidecode name = Some r →
  (∀ c, In c (list_ascii_of_string r) → is_upper c = false) ∧
  (∀ c, first_char r = Some c → is_space c = false) ∧
  (∀ c, last_char r = Some c → is_space c = false).
Proof.
  destruct name as [n|]; [|discriminate]. intros [= <-]. unfold clean.
  split; [|split]; intros c.
  - intros H. apply replace2_In, lstrip_In, rstrip_In in H.
    now apply lower_In in H.
  - rewrite replace2_first. apply lstrip_first.
  - rewrite replace2_last. intros H. now apply lstrip_last, rstrip_last in H.
Qed.

(** X16. The replacement of two spaces by one is a single pass: a run of
    [n] spaces between two characters that are not white space comes out
    as the upper half of [n] spaces, so a run of three or more spaces is
    not reduced to one space. *)
Theorem clean_space_run (x y : ascii) (n : nat) :
  is_space x = false → is_space y = false →
  clean (String x (spaces n ++ String y ""))
  = String (lower_ascii x) (spaces (Nat.div2 (S n)) ++ String (lower_ascii y) "").
Proof.
  intros Hx Hy. unfold clean.
  assert (Hl : lower (String x (spaces n ++ String y ""))
               = String (lower_ascii x) (spaces n ++ String (lower_ascii y) "")).
  { cbn [lower]. now rewrite lower_app, lower_spaces. }
  rewrite Hl, strip_word by now rewrite lower_ascii_space.
  assert (Hsp : ∀ c, is_space c = false → c ≠ " "%char)
    by (intros c Hc ->; discriminate).
  rewrite replace2_other
    by (left; apply Hsp; now rewrite lower_ascii_space).
  f_equal. rewrite replace2_spaces.
  - now rewrite replace2_other by (right; discriminate).
  - cbn. intros [= E]. eapply Hsp; [|exact E]. now rewrite lower_ascii_space.
Qed.

(** X17. On text that the transliteration leaves as it is, the key does
    not depend on the case of the letters nor on white space around the
    name. *)
Theorem clean_ignores_case_and_margins (s ws1 ws2 : string) :
  all_space ws1 = true → all_space ws2 = true →
  clean (ws1 ++ upper s ++ ws2) = clean s ∧
  normalize_name (λ n, n) (Some (ws1 ++ upper s ++ ws2))
  = normalize_name (λ n, n) (Some s).
Proof.
  intros H1 H2.
  assert (H : clean (ws1 ++ upper s ++ ws2) = clean s).
  { unfold clean. rewrite !lower_app, lower_upper.
    now rewrite strip_surrounded by now rewrite all_space_lower. }
  split; [exact H|]. cbn [normalize_name]. now rewrite H.
Qed.

(** *** Match keys *)

Lemma no_underscore_cons (c : ascii) (s : string) :
  contains "_" (String c s) = false → c ≠ "_"%char ∧ contains "_" s = false.
Proof.
  cbn [contains String.prefix]. intros [H1 H2]%orb_false_iff.
  split; [|exact H2]. intros ->.
  destruct (ascii_dec "_" "_"); [|congruence]. now destruct s.
Qed.

Lemma split_unique (u u' x x' : string) :
  contains "_" u = false → contains "_" u' = false →
  u ++ String "_" x = u' ++ String "_" x' → u = u' ∧ x = x'.
Proof.
  revert u'. induction u as [|c u IH]; intros [|c' u'] Hu Hu'; cbn.
  - intros [= ->]. auto.
  - intros [= <- _]. apply no_underscore_cons in Hu' as [? _]. congruence.
  - intros [= -> _]. apply no_underscore_cons in Hu as [? _]. congruence.
  - intros [= -> E].
    apply no_underscore_cons in Hu as [_ Hu], Hu' as [_ Hu'].
    destruct (IH u' Hu Hu' E) as [-> ->]. auto.
Qed.

(** X18. When the tournament ids, the rounds and the winner names hold no
    underscore, [match_key] tells apart any two rows that differ in
    tournament, round, winner or loser. *)
Theorem match_key_injective (a b : Row) :
  contains "_" (tourney_id a) = false → contains "_" (tourney_id b) = false →
  contains "_" (round a) = false → contains "_" (round b) = false →
  contains "_" (winner_name a) = false → contains "_" (winner_name b) = false →
  match_key a = match_key b →
  tourney_id a = tourney_id b ∧ round a = round b ∧
  winner_name a = winner_name b ∧ loser_name a = loser_name b.
Proof.
  intros Ht Ht' Hr Hr' Hw Hw'. unfold match_key. cbn [String.append].
  intros E.
  apply split_unique in E as [E1 E]; [|assumption..].
  apply split_unique in E as [E2 E]; [|assumption..].
  apply split_unique in E as [E3 E]; [|assumption..].
  injection E as E. auto.
Qed.

End NameKeys.

(** ** The further properties on sample data *)

Section MoreSamples.
Local Open Scope R_scope.

Lemma In_first_record :
  In (snd (step R_ops default_config empty_store row_AB))
     (compute_elo_timeseries R_ops default_config [row_AB]).
Proof.
  unfold compute_elo_timeseries. change (sort_values [row_AB]) with [row_AB].
  rewrite run_cons. left. reflexivity.
Defined.

Lemma input_order_irrelevant_witness :
  compute_elo_timeseries R_ops default_config [row_AB; row_BA_100]
  = compute_elo_timeseries R_ops default_config [row_BA_100; row_AB].
Proof.
  apply (input_order_irrelevant R_ops default_config
           [row_AB; row_BA_100] [row_BA_100; row_AB]).
  - apply perm_swap.
  - intros a b [<-|[<-|[]]] [<-|[<-|[]]] H; try reflexivity;
      vm_compute in H; discriminate H.
Defined.

Lemma bystanders_untouched_witness :
  elo (final_store R_ops default_config empty_store [row_AB]) !! "c"
  = elo (@empty_store R) !! "c".
Proof.
  apply (bystanders_untouched R_ops default_config empty_store [row_AB] "c").
  intros row [<-|[]] [H|H]; discriminate H.
Defined.

Lemma dictionaries_consistent_witness :
  is_Some (elo (final_store R_ops decay_config empty_store [row_AB]) !! "a").
Proof.
  apply (dictionaries_consistent R_ops decay_config [row_AB] "a" (Some 0%Z)).
  cbn [final_store]. rewrite store_after_AB_reached.
  exact last_date_after_AB_a.
Defined.

Lemma ratings_never_removed_witness :
  is_Some (elo (final_store R_ops default_config empty_store [row_AB]) !! "b").
Proof.
  apply (proj2 (ratings_never_removed R_ops default_config empty_store [row_AB])
           row_AB "b").
  - now left.
  - now right.
Defined.

Lemma no_decay_within_a_day_witness :
  apply_decay R_ops decay_config store_after_AB row_AB = elo store_after_AB.
Proof.
  apply (no_decay_within_a_day R_ops decay_config store_after_AB row_AB 0%Z eq_refl).
  intros p ld [-> | ->] H; vm_compute in H; injection H as <-; reflexivity.
Defined.

Lemma update_bounded_witness :
  winner_elo_pre (snd (step R_ops default_config empty_store row_AB))
  <= winner_elo_post (snd (step R_ops default_config empty_store row_AB)).
Proof.
  apply (update_bounded default_config [row_AB]
           (snd (step R_ops default_config empty_store row_AB))).
  - simpl. lra.
  - simpl. lra.
  - exact In_first_record.
Defined.

Lemma decay_never_raises_witness :
  rating decay_config (apply_decay R_ops decay_config store_after_AB row_BA_100) "a"
  <= rating decay_config (elo store_after_AB) "a".
Proof. apply decay_never_raises. simpl. lra. Defined.

Lemma normalize_name_form_witness :
  (∀ c, In c (list_ascii_of_string "roger federer") → is_upper c = false) ∧
  (∀ c, first_char "roger federer" = Some c → is_space c = false) ∧
  (∀ c, last_char "roger federer" = Some c → is_space c = false).
Proof.
  apply (normalize_name_form (λ n, n) (Some " Roger  FEDERER "%string)).
  reflexivity.
Defined.

Lemma clean_space_run_witness : clean "a   b" = "a  b"%string.
Proof. exact (clean_space_run "a" "b" 3 eq_refl eq_refl). Defined.

Lemma clean_ignores_case_and_margins_witness :
  clean " NADAL  " = clean "Nadal".
Proof.
  exact (proj1 (clean_ignores_case_and_margins "Nadal" " " "  " eq_refl eq_refl)).
Defined.

Lemma match_key_injective_witness :
  loser_name row_AB = loser_name (set_date None row_AB).
Proof.
  apply (match_key_injective row_AB (set_date None row_AB));
    reflexivity.
Defined.

(** Normalising twice is not normalising once. *)
Example clean_not_idempotent : clean (clean "a   b") ≠ clean "a   b".
Proof. discriminate. Qed.

(** With underscores in the fields two different matches can get one key. *)
Example match_key_collision :
  let a := {| tourney_id := "2000_580"; tourney_name := ""; tourney_date := None;
              match_num := None; round := "F"; surface := "";
              winner_name := "A"; loser_name := "B";
              winner_name_norm := "a"; loser_name_norm := "b" |} in
  let b := {| tourney_id := "2000"; tourney_name := ""; tourney_date := None;
              match_num := None; round := "580_F"; surface := "";
              winner_name := "A"; loser_name := "B";
              winner_name_norm := "a"; loser_name_norm := "b" |} in
  match_key a = match_key b ∧ tourney_id a ≠ tourney_id b.
Proof. split; [reflexivity | discriminate]. Qed.

End MoreSamples.

(** ** Floats as binary64 numbers: what rounding keeps *)

Section Binary64.
Context (pow : spec_float → spec_float → spec_float).
Implicit Types (cfg : Config spec_float) (st : Store spec_float) (row : Row).

Lemma SFsub_diag (a : spec_float) :
  sf_finite a = true → SFsub 53 1024 a a = S754_zero false.
Proof.
  destruct a as [s|s| |s m e]; cbn [sf_finite]; try discriminate; intros _.
  - now destruct s.
  - unfold SFsub. cbv zeta. rewrite Z.min_id. unfold shl_align.
    rewrite !Z.sub_diag. cbn [fst]. rewrite ?Z.sub_diag. reflexivity.
Qed.

Lemma binary_round_aux_opp (s : bool) (m e : Z) (l : location) :
  SFopp (binary_round_aux 53 1024 s m e l)
  = binary_round_aux 53 1024 (negb s) m e l.
Proof.
  unfold binary_round_aux.
  destruct (shr_fexp 53 1024 m e l) as [mrs e'].
  destruct (shr_fexp 53 1024 _ e' loc_Exact) as [mrs' e''].
  destruct (shr_m mrs'); [reflexivity | | reflexivity].
  now destruct (Z.leb e'' (1024 - 53)).
Qed.

(** Multiplying by [0.0 - e] gives the opposite of multiplying by [e]. *)
Lemma SFmul_sub_zero (k e : spec_float) :
  sf_same (SFmul 53 1024 k (SFsub 53 1024 (S754_zero false) e))
          (SFopp (SFmul 53 1024 k e)).
Proof.
  destruct e as [se|se| |se me ee].
  - replace (SFsub 53 1024 (S754_zero false) (S754_zero se))
      with (S754_zero false) by now destruct se.
    destruct k as [sk|sk| |sk mk ek]; cbn;
      try (now left); right; eauto.
  - destruct k as [sk|sk| |sk mk ek]; cbn; left;
      try reflexivity; now destruct sk, se.
  - destruct k; now left.
  - left. cbn [SFsub].
    destruct k as [sk|sk| |sk mk ek]; cbn [SFmul SFopp];
      try reflexivity; try (now destruct sk, se).
    rewrite binary_round_aux_opp. now destruct sk, se.
Qed.

Lemma decay_off_b64 cfg :
  SFeqb (decay_per_365d cfg) (b64_int 0) = true →
  fgtb (B64_ops pow) (decay_per_365d cfg) (f_int (B64_ops pow) 0) = false.
Proof.
  cbn [fgtb f_int B64_ops]. change (b64_int 0) with (S754_zero false).
  now destruct (decay_per_365d cfg) as [s|s| |s m e]; try destruct s.
Qed.

Lemma expected_score_self_b64 (a : spec_float) :
  pow_zero_rule pow → sf_finite a = true →
  expected_score (B64_ops pow) a a = b64_half.
Proof.
  intros Hz Ha. unfold expected_score. cbn [fdiv fadd fsub fpow f_int B64_ops].
  rewrite (SFsub_diag a Ha).
  change (SFdiv 53 1024 (S754_zero false) (b64_int 400)) with (S754_zero false).
  rewrite Hz. reflexivity.
Qed.

(** C2 (amended). With [decay_per_365d == 0], in every iteration the
    ratings read are the stored ones, the winner's new rating is
    ratingW + k * (1 - expW) and the loser's is ratingL plus the opposite
    of that same amount, each sum rounded once to binary64: the update
    moves k * (1 - expW) points from the loser to the winner. *)
Theorem zero_sum_without_decay cfg :
  SFeqb (decay_per_365d cfg) (b64_int 0) = true →
  ∀ st row,
    let s := snd (step (B64_ops pow) cfg st row) in
    let points := SFmul 53 1024 (k_used s) (SFsub 53 1024 (b64_int 1) (exp_winner s)) in
    winner_elo_pre s = rating cfg (elo st) (winner_name_norm row) ∧
    loser_elo_pre s = rating cfg (elo st) (loser_name_norm row) ∧
    winner_elo_post s = SFadd 53 1024 (winner_elo_pre s) points ∧
    ∃ back, loser_elo_post s = SFadd 53 1024 (loser_elo_pre s) back ∧
            sf_same back (SFopp points).
Proof.
  intros Hd st row s points.
  pose proof (apply_decay_off (B64_ops pow) cfg st row (decay_off_b64 cfg Hd)) as H0.
  destruct (step_updated (B64_ops pow) cfg st row) as (_ & Hel & _ & Hw & Hl).
  fold s in Hel, Hw, Hl. cbn [fadd fsub fmul f_int B64_ops] in Hel, Hw, Hl.
  split; [subst s; now rewrite step_pre_w, H0|].
  split; [subst s; now rewrite step_pre_l, H0|].
  split; [exact Hw|].
  exists (SFmul 53 1024 (k_used s) (SFsub 53 1024 (b64_int 0) (exp_loser s))).
  split; [exact Hl|].
  subst points. rewrite <- Hel. apply SFmul_sub_zero.
Qed.

(** The first match of two unseen players, without decay. *)
Lemma first_match_b64 cfg :
  pow_zero_rule pow → sf_finite (seed_elo cfg) = true →
  SFeqb (decay_per_365d cfg) (b64_int 0) = true →
  let s := snd (step (B64_ops pow) cfg empty_store row_AB) in
  let k := SFadd 53 1024 (base_k cfg) (SFmul 53 1024 (gs_bonus_k cfg) (b64_int 8)) in
  winner_elo_pre s = seed_elo cfg ∧ loser_elo_pre s = seed_elo cfg ∧
  winner_elo_post s = SFadd 53 1024 (seed_elo cfg) (SFmul 53 1024 k b64_half) ∧
  loser_elo_post s
    = SFadd 53 1024 (seed_elo cfg) (SFmul 53 1024 k (SFopp b64_half)) ∧
  exp_winner s = b64_half.
Proof.
  intros Hz Hs Hd s k. subst s. rewrite step_unfold. cbv zeta.
  cbn [snd winner_elo_pre loser_elo_pre winner_elo_post loser_elo_post
       exp_winner].
  rewrite (apply_decay_off (B64_ops pow) cfg empty_store row_AB (decay_off_b64 cfg Hd)).
  unfold rating. cbn [elo empty_store]. rewrite !lookup_empty. cbn [default].
  rewrite (expected_score_self_b64 _ Hz Hs).
  change (round_weight (B64_ops pow) (round row_AB)) with (b64_int 8).
  repeat split; reflexivity.
Qed.

End Binary64.

(** ** Exact sums and strict growth do not survive rounding *)

Section Rounding.

(** The claim C2 as stated, in the arithmetic of the code: with the seed
    rating 1020.1 and K = 32 the first match gives 1036.1 and 1004.1, and
    the two changes 15.999999999999886 and -16.0 do not sum to zero. *)
Lemma zero_sum_without_decay_counterexample :
  ¬ ∃ pow, pow_zero_rule pow ∧
      ∀ (cfg : Config spec_float) (st : Store spec_float) (row : Row),
        SFeqb (decay_per_365d cfg) (b64_int 0) = true →
        let s := snd (step (B64_ops pow) cfg st row) in
        SFeqb (SFadd 53 1024
                 (SFsub 53 1024 (winner_elo_post s) (winner_elo_pre s))
                 (SFsub 53 1024 (loser_elo_post s) (loser_elo_pre s)))
              (b64_int 0) = true.
Proof.
  intros (pow & Hz & H).
  specialize (H (b64_config seed_1020_1 (b64_int 32)) empty_store row_AB eq_refl).
  destruct (first_match_b64 pow (b64_config seed_1020_1 (b64_int 32))
              Hz eq_refl eq_refl) as (Hpw & Hpl & Hw & Hl & _).
  cbv zeta in H. rewrite Hpw, Hpl, Hw, Hl in H.
  vm_compute in H. discriminate H.
Qed.

Lemma zero_sum_without_decay_witness :
  let cfg := b64_config (b64_int 1500) (b64_int 32) in
  let s := snd (step (B64_ops pow_equal_ratings) cfg empty_store row_AB) in
  winner_elo_pre s = rating cfg (elo empty_store) (winner_name_norm row_AB).
Proof.
  exact (proj1 (zero_sum_without_decay pow_equal_ratings
                  (b64_config (b64_int 1500) (b64_int 32)) eq_refl
                  empty_store row_AB)).
Defined.







(** A negative K-factor turns the update round: raising base_k from -32 to
    -16 takes the absolute change from 16 down to 8. *)
Example negative_base_k_shrinks_gain :
  (Rabs (winner_gain (with_base_k (-16) default_config) empty_store row_AB)
   < Rabs (winner_gain (with_base_k (-32) default_config) empty_store row_AB))%R.
Proof. rewrite !first_match_gain, !Rabs_left by lra. lra. Qed.

End Rounding.
